(** * Setlist Builder: the Band and Setlist models and the collaboration relay

    A shallow embedding of [backend/models/band.model.js] (the Band and the
    Setlist mongoose models) and of the socket handlers of
    [backend/server.js], followed by the properties of the setlist
    document engine that the specification states about them.

    Conventions of the embedding.
    - An ObjectId is its hexadecimal string; [a.toString() === b.toString()]
      is string equality.
    - A JavaScript number that holds a count, an index, an order or a number
      of seconds is an integer ([Z]); fractional values and NaN are outside
      the model.
    - A JavaScript array is a list.  The [sets] array can be written past its
      end ([this.sets[i] = ...]), which leaves empty slots: a slot is an
      [option], [None] being an empty slot (reads as [undefined], skipped by
      [reduce]).
    - A method that mutates [this] and may throw is a function from the
      document before the call to the document after it and the outcome. *)

From Stdlib Require Import ZArith Lia Ascii DecimalString.
From stdpp Require Import gmap strings list.

Local Open Scope Z_scope.

Definition ObjectId := string.

(** [a.toString() === b.toString()] on two ObjectIds. *)
Definition same_id (a b : ObjectId) : bool := String.eqb a b.

(** ** Band model *)

Module Band.

Inductive Role := leader | member.

Inductive Permission :=
  edit_setlists | add_songs | edit_songs | invite_members | remove_members.

Definition Role_eqb (a b : Role) : bool :=
  match a, b with
  | leader, leader | member, member => true
  | _, _ => false
  end.

Definition Permission_eqb (a b : Permission) : bool :=
  match a, b with
  | edit_setlists, edit_setlists
  | add_songs, add_songs
  | edit_songs, edit_songs
  | invite_members, invite_members
  | remove_members, remove_members => true
  | _, _ => false
  end.

Record Member := mkMember {
  userId : ObjectId;
  role : Role;
  permissions : list Permission
}.

Record t := mk {
  _id : ObjectId;
  name : string;
  description : string;
  members : list Member;
  createdBy : ObjectId;
  (* mongoose's document flag: not yet stored *)
  isNew : bool
}.

Definition with_members (this : t) (ms : list Member) : t :=
  mk (_id this) (name this) (description this) ms (createdBy this) (isNew this).

(** [this.members.find(member => member.userId.toString() === userId.toString())] *)
Definition find_member (this : t) (uid : ObjectId) : option Member :=
  List.find (fun m => same_id (userId m) uid) (members this).

Definition all_permissions : list Permission :=
  [edit_setlists; add_songs; edit_songs; invite_members; remove_members].

(** [bandSchema.pre('save', ...)]: on creation, the creator is pushed as a
    leader with all permissions unless some member already carries the
    creator's id. *)
Definition preSave (this : t) : t :=
  if isNew this then
    match find_member this (createdBy this) with
    | Some _ => this
    | None =>
        with_members this
          (members this ++ [mkMember (createdBy this) leader all_permissions])
    end
  else this.

(** [bandSchema.methods.hasMember] *)
Definition hasMember (this : t) (uid : ObjectId) : bool :=
  existsb (fun m => same_id (userId m) uid) (members this).

(** [bandSchema.methods.isLeader]: [member && member.role === 'leader'],
    read as a truth value. *)
Definition isLeader (this : t) (uid : ObjectId) : bool :=
  match find_member this uid with
  | Some m => Role_eqb (role m) leader
  | None => false
  end.

(** [bandSchema.methods.hasPermission] *)
Definition hasPermission (this : t) (uid : ObjectId) (permission : Permission) : bool :=
  match find_member this uid with
  | None => false
  | Some m =>
      if Role_eqb (role m) leader then true
      else existsb (Permission_eqb permission) (permissions m)
  end.

End Band.

(** The Band collection as [Band.findOne] sees it: the stored documents, or
    no answer at all when the store cannot be reached (the query's promise
    rejects). *)
Inductive BandCollection :=
  | Reachable (docs : list Band.t)
  | Unreachable.

(** The settled state of the promise an [async] function returns. *)
Inductive Promise (A : Type) :=
  | Resolved (a : A)
  | Rejected.
Arguments Resolved {A} a.
Arguments Rejected {A}.

(** [Band.findOne({ _id: bandId, 'members.userId': userId })]: the first
    stored band with that id that lists that user, [null] when there is
    none. *)
Definition Band_findOne (db : BandCollection) (bandId userId : ObjectId)
  : Promise (option Band.t) :=
  match db with
  | Reachable docs =>
      Resolved (List.find
                  (fun b => same_id (Band._id b) bandId && Band.hasMember b userId)
                  docs)
  | Unreachable => Rejected
  end.

(** ** JavaScript arrays *)

(** [arr[i]] for an integer [i]: [undefined] ([None]) below 0 and from
    [arr.length] on. *)
Definition js_index {A : Type} (arr : list A) (i : Z) : option A :=
  if bool_decide (0 <= i) then arr !! Z.to_nat i else None.

(** [arr[i] = v] on an array with empty slots, [i] an array index: inside the
    array the slot is overwritten, past its end the array is extended and the
    slots in between stay empty. *)
Definition js_assign {A : Type} (arr : list (option A)) (i : nat) (v : A)
  : list (option A) :=
  if bool_decide (i < length arr)%nat then <[i := Some v]> arr
  else arr ++ replicate (i - length arr) None ++ [Some v].

(** The index at which [arr.splice(start, ...)] begins, for an array of
    length [len] (ECMAScript: a negative [start] counts from the end, and
    the result is kept within [0, len]). *)
Definition splice_start (len : nat) (start : Z) : nat :=
  if bool_decide (start < 0) then Z.to_nat (Z.max (Z.of_nat len + start) 0)
  else Z.to_nat (Z.min start (Z.of_nat len)).

(** [arr.splice(start, 0, x)] *)
Definition splice_insert {A : Type} (start : Z) (x : A) (arr : list A) : list A :=
  let k := splice_start (length arr) start in
  take k arr ++ x :: drop k arr.

(** [Math.max(x, ...xs)] *)
Definition Math_max (x : Z) (xs : list Z) : Z := fold_left Z.max xs x.

(** [`${n}`] for a natural number. *)
Definition decimal (n : nat) : string := NilZero.string_of_uint (Nat.to_uint n).

(** [n.toString()] for an integer [n]. *)
Definition Number_toString (n : Z) : string :=
  if bool_decide (n < 0) then String "-"%char (decimal (Z.to_nat (- n)))
  else decimal (Z.to_nat n).

(** [s.padStart(targetLength, '0')]: [s] itself when it is long enough, else
    as many zeros in front as it is short of [targetLength]. *)
Definition padStart_0 (targetLength : nat) (s : string) : string :=
  Nat.iter (targetLength - String.length s) (String "0"%char) s.

(** ** Setlist model *)

Module Entry.

(** An element of [sets[i].songs].  [duration] is [None] when the field is
    [null] or [undefined]. *)
Record t := mk {
  songId : ObjectId;
  order : Z;
  duration : option Z;
  notes : string;
  isPlayed : bool
}.

Definition with_order (song : t) (o : Z) : t :=
  mk (songId song) o (duration song) (notes song) (isPlayed song).

End Entry.

Module SetDoc.

(** An element of [sets]. *)
Record t := mk {
  name : string;
  duration : Z;
  songs : list Entry.t
}.

Definition with_songs (set : t) (l : list Entry.t) : t :=
  mk (name set) (duration set) l.

Definition with_duration (set : t) (d : Z) : t :=
  mk (name set) d (songs set).

End SetDoc.

Module VersionRecord.

Record t := mk {
  version : Z;
  changedBy : ObjectId;
  timestamp : Z;
  changes : string
}.

End VersionRecord.

Module Setlist.

Record t := mk {
  title : string;
  description : string;
  date : option Z;
  venue : string;
  totalDuration : Z;
  sets : list (option SetDoc.t);
  createdBy : ObjectId;
  bandId : option ObjectId;
  isPublic : bool;
  version : Z;
  versionHistory : list VersionRecord.t
}.

Definition with_sets (this : t) (s : list (option SetDoc.t)) : t :=
  mk (title this) (description this) (date this) (venue this)
     (totalDuration this) s (createdBy this) (bandId this) (isPublic this)
     (version this) (versionHistory this).

Definition with_totalDuration (this : t) (d : Z) : t :=
  mk (title this) (description this) (date this) (venue this)
     d (sets this) (createdBy this) (bandId this) (isPublic this)
     (version this) (versionHistory this).

Definition with_version (this : t) (v : Z) (h : list VersionRecord.t) : t :=
  mk (title this) (description this) (date this) (venue this)
     (totalDuration this) (sets this) (createdBy this) (bandId this)
     (isPublic this) v h.

(** A document created with the schema defaults. *)
Definition create (title : string) (createdBy : ObjectId) : t :=
  mk title "" None "" 0 [] createdBy None false 1 [].

(** *** The pre-save hook *)

(** [song.duration || 0]: [null], [undefined] and [0] all give [0]. *)
Definition duration_or_0 (song : Entry.t) : Z :=
  match Entry.duration song with
  | Some d => if bool_decide (d = 0) then 0 else d
  | None => 0
  end.

(** [set.songs.reduce((setTotal, song) => setTotal + (song.duration || 0), 0)] *)
Definition songs_total (songs : list Entry.t) : Z :=
  fold_left (fun setTotal song => setTotal + duration_or_0 song) songs 0.

(** One call of the outer [reduce] callback.  The accumulator carries the
    running total and the slots already visited, as the callback left them;
    an empty slot is not visited. *)
Definition preSave_step (acc : Z * list (option SetDoc.t)) (slot : option SetDoc.t)
  : Z * list (option SetDoc.t) :=
  match slot with
  | None => (acc.1, acc.2 ++ [None])
  | Some set =>
      let set' := SetDoc.with_duration set (songs_total (SetDoc.songs set)) in
      (acc.1 + SetDoc.duration set', acc.2 ++ [Some set'])
  end.

(** [setlistSchema.pre('save', ...)] *)
Definition preSave (this : t) : t :=
  let r := fold_left preSave_step (sets this) (0, []) in
  with_totalDuration (with_sets this r.2) r.1.

(** *** The formatted total *)

(** [setlistSchema.virtual('formattedTotalDuration')]: [Math.floor] of a
    quotient of integers is [Z.div], and [%] is the remainder that takes the
    sign of the dividend, [Z.rem]. *)
Definition formattedTotalDuration (this : t) : string :=
  if bool_decide (totalDuration this = 0) then "00:00:00"
  else
    let hours := totalDuration this `div` 3600 in
    let minutes := Z.rem (totalDuration this) 3600 `div` 60 in
    let seconds := Z.rem (totalDuration this) 60 in
    String.append (padStart_0 2 (Number_toString hours))
      (String ":"%char (String.append (padStart_0 2 (Number_toString minutes))
         (String ":"%char (padStart_0 2 (Number_toString seconds))))).

(** *** Access *)

(** [setlistSchema.methods.isAccessibleBy] *)
Definition isAccessibleBy (db : BandCollection) (this : t) (userId : ObjectId)
  : Promise bool :=
  if isPublic this then Resolved true
  else if same_id (createdBy this) userId then Resolved true
  else
    match bandId this with
    | Some b =>
        match Band_findOne db b userId with
        | Resolved band => Resolved (bool_decide (is_Some band))
        | Rejected => Rejected
        end
    | None => Resolved false
    end.

(** *** Methods that mutate the document *)

Inductive Exn :=
  | Error (message : string)
  | TypeError.

(** A method body: from the document before to the document after and either
    the exception thrown or the value returned.  What was written before a
    [throw] stays written. *)
Definition M (A : Type) : Type := t -> t * (Exn + A).

Definition ret {A : Type} (a : A) : M A := fun this => (this, inr a).

Definition throw {A : Type} (e : Exn) : M A := fun this => (this, inl e).

Definition bind {A B : Type} (m : M A) (k : A -> M B) : M B :=
  fun this =>
    match m this with
    | (this', inr a) => k a this'
    | (this', inl e) => (this', inl e)
    end.

#[export] Instance M_ret : MRet M := @ret.
#[export] Instance M_bind : MBind M := fun A B k m => bind m k.

(** [this.sets[i]] as a truth value: the set there, or nothing ([undefined]). *)
Definition set_at (sets : list (option SetDoc.t)) (i : Z) : option SetDoc.t :=
  match js_index sets i with
  | Some (Some set) => Some set
  | _ => None
  end.

(** [this.sets[i]] *)
Definition get_set (i : Z) : M (option SetDoc.t) :=
  fun this => (this, inr (set_at (sets this) i)).

(** [this.sets[i].songs]: a TypeError when [this.sets[i]] is [undefined]. *)
Definition get_songs (i : Z) : M (list Entry.t) :=
  fun this =>
    match set_at (sets this) i with
    | Some set => (this, inr (SetDoc.songs set))
    | None => (this, inl TypeError)
    end.

(** An in-place change of [this.sets[i].songs] (a [push], a [splice] or the
    [forEach] that rewrites each [order]). *)
Definition put_songs (i : Z) (l : list Entry.t) : M unit :=
  fun this =>
    match set_at (sets this) i with
    | Some set =>
        (with_sets this (<[Z.to_nat i := Some (SetDoc.with_songs set l)]> (sets this)),
         inr tt)
    | None => (this, inl TypeError)
    end.

(** [this.sets[i] = set] *)
Definition assign_set (i : nat) (set : SetDoc.t) : M unit :=
  fun this => (with_sets this (js_assign (sets this) i set), inr tt).

(** [songs.forEach((song, index) => { song.order = index + 1; })] *)
Definition renumber (songs : list Entry.t) : list Entry.t :=
  imap (fun index song => Entry.with_order song (Z.of_nat index + 1)) songs.

(** The [nextOrder] of [addSong]. *)
Definition nextOrder (songs : list Entry.t) : Z :=
  match Entry.order <$> songs with
  | [] => 1
  | o :: os => Math_max o os + 1
  end.

(** The set that [addSong] creates at [setIndex]; [duration] takes the
    schema default. *)
Definition new_set (setIndex : nat) : SetDoc.t :=
  SetDoc.mk (String.append "Set " (decimal (setIndex + 1))) 0 [].

(** [setlistSchema.methods.addSong], [setIndex] an array index; the entry's
    [isPlayed] takes the schema default, and [duration] is stored as passed
    ([None] for a duration not given, which the pre-save hook reads as 0). *)
Definition addSong (setIndex : nat) (songId : ObjectId) (duration : option Z)
    (notes : string) : M unit :=
  set ← get_set (Z.of_nat setIndex);
  (match set with
   | None => assign_set setIndex (new_set setIndex)
   | Some _ => ret tt
   end);;
  songs ← get_songs (Z.of_nat setIndex);
  put_songs (Z.of_nat setIndex)
    (songs ++ [Entry.mk songId (nextOrder songs) duration notes false]).

(** [setlistSchema.methods.moveSong].  The two guards come first and write
    nothing; [song], the element the second guard found at [fromSongIndex],
    is the one the first [splice] returns. *)
Definition moveSong (fromSetIndex fromSongIndex toSetIndex toPosition : Z) : M unit :=
  from ← get_set fromSetIndex;
  to ← get_set toSetIndex;
  match from, to with
  | Some src, Some _ =>
      match js_index (SetDoc.songs src) fromSongIndex with
      | None => throw (Error "Invalid song index")
      | Some song =>
          (* songs.splice(fromSongIndex, 1)[0] *)
          songs ← get_songs fromSetIndex;
          put_songs fromSetIndex (delete (Z.to_nat fromSongIndex) songs);;
          (* songs.splice(toPosition, 0, song) *)
          songs ← get_songs toSetIndex;
          put_songs toSetIndex (splice_insert toPosition song songs);;
          (* reorder the destination set *)
          songs ← get_songs toSetIndex;
          put_songs toSetIndex (renumber songs);;
          (* and the source set, when it is another one *)
          if bool_decide (fromSetIndex <> toSetIndex) then
            songs ← get_songs fromSetIndex;
            put_songs fromSetIndex (renumber songs)
          else ret tt
      end
  | _, _ => throw (Error "Invalid set index")
  end.

(** Modelled from the spec: [removeSong] is not among the methods of the
    Setlist model.  Section 4.2: "removes the entry and renumbers the
    remaining entries of that set contiguously"; section 7 files an
    out-of-range set or song index under InvalidReference, which the model
    reports with the messages [moveSong] uses. *)
Definition removeSong (setIndex songIndex : Z) : M unit :=
  set ← get_set setIndex;
  match set with
  | None => throw (Error "Invalid set index")
  | Some src =>
      match js_index (SetDoc.songs src) songIndex with
      | None => throw (Error "Invalid song index")
      | Some _ =>
          put_songs setIndex (renumber (delete (Z.to_nat songIndex) (SetDoc.songs src)))
      end
  end.

(** Modelled from the spec: no code of the Setlist model writes [version] or
    [versionHistory]; only the two schema fields exist.  Section 4.4:
    "Appends a new VersionRecord with version = setlist.version + 1, then
    sets setlist.version to that value." *)
Definition commit (actorId : ObjectId) (description : string) (now : Z) (this : t) : t :=
  let v := version this + 1 in
  with_version this v
    (versionHistory this ++ [VersionRecord.mk v actorId now description]).

End Setlist.

(** ** Song model ([backend/models/song.model.js]) *)

Module Song.

(** [duration] is [None] when the field is [null]. *)
Record t := mk {
  title : string;
  artist : string;
  duration : option Z;
  key : string;
  tempo : Z;
  tags : list string;
  notes : string;
  chordSheetUrl : string;
  lyricsUrl : string;
  spotifyId : string;
  createdBy : ObjectId;
  bandId : option ObjectId
}.

(** [songSchema.virtual('formattedDuration')]; [!this.duration] holds of
    [null] and of 0. *)
Definition formattedDuration (this : t) : string :=
  match duration this with
  | None => "00:00"
  | Some d =>
      if bool_decide (d = 0) then "00:00"
      else
        let minutes := d `div` 60 in
        let seconds := Z.rem d 60 in
        String.append (padStart_0 2 (Number_toString minutes))
          (String ":"%char (padStart_0 2 (Number_toString seconds)))
  end.

(** [songSchema.methods.isAccessibleBy] *)
Definition isAccessibleBy (db : BandCollection) (this : t) (userId : ObjectId)
  : Promise bool :=
  if same_id (createdBy this) userId then Resolved true
  else
    match bandId this with
    | Some b =>
        match Band_findOne db b userId with
        | Resolved band => Resolved (bool_decide (is_Some band))
        | Rejected => Rejected
        end
    | None => Resolved false
    end.

End Song.

(** ** The collaboration relay of [server.js] *)

Module Server.

Definition SocketId := string.

(** The object a client sends with ['update-setlist']; the handler reads
    only [setlistId] and relays the whole object. *)
Record UpdateData := mkData {
  setlistId : string;
  version : Z;
  changedBy : ObjectId;
  payload : string
}.

(** One event put on the wire for one socket. *)
Record Emission := mkEmission {
  recipient : SocketId;
  event : string;
  data : UpdateData
}.

(** socket.io's room registry: the sockets joined to each room. *)
Abbreviation Rooms := (gmap string (gset SocketId)).

Definition joined (rooms : Rooms) (room : string) : gset SocketId :=
  default ∅ (rooms !! room).

(** [`setlist-${setlistId}`] *)
Definition room_name (setlistId : string) : string :=
  String.append "setlist-" setlistId.

(** [socket.join(room)] *)
Definition socket_join (socket : SocketId) (room : string) (rooms : Rooms) : Rooms :=
  <[room := {[socket]} ∪ joined rooms room]> rooms.

(** [socket.to(room).emit(event, data)]: socket.io sends the event to every
    socket joined to [room] except [socket] itself. *)
Definition socket_to_emit (socket : SocketId) (room event : string)
    (data : UpdateData) (rooms : Rooms) : list Emission :=
  (fun r => mkEmission r event data) <$> elements (joined rooms room ∖ {[socket]}).

(** [socket.on('join-setlist', ...)] *)
Definition on_join_setlist (socket : SocketId) (setlistId : string) (rooms : Rooms)
  : Rooms :=
  socket_join socket (room_name setlistId) rooms.

(** [socket.on('update-setlist', ...)] *)
Definition on_update_setlist (socket : SocketId) (data : UpdateData) (rooms : Rooms)
  : list Emission :=
  socket_to_emit socket (room_name (setlistId data)) "setlist-updated" data rooms.

(** The events among [out] that reach [socket]. *)
Definition received (socket : SocketId) (out : list Emission) : list Emission :=
  filter (fun e => recipient e = socket) out.

End Server.

(** ** Vocabulary of the properties *)

Section Vocabulary.
Import Setlist.

(** The [order] values of [songs] are exactly 1..N, each once. *)
Definition contiguous (songs : list Entry.t) : Prop :=
  Entry.order <$> songs ≡ₚ seqZ 1 (Z.of_nat (length songs)).

(** Every set of the setlist has contiguous orders. *)
Definition orders_contiguous (this : t) : Prop :=
  forall (i : nat) (set : SetDoc.t),
    sets this !! i = Some (Some set) -> contiguous (SetDoc.songs set).

(** The document with [l] as the songs of [set], stored at slot [i]. *)
Definition with_songs_at (this : t) (i : Z) (set : SetDoc.t) (l : list Entry.t) : t :=
  with_sets this (<[Z.to_nat i := Some (SetDoc.with_songs set l)]> (sets this)).

(** The operations of the ordering engine. *)
Inductive Op :=
  | AddSong (setIndex : nat) (songId : ObjectId) (duration : option Z) (notes : string)
  | MoveSong (fromSetIndex fromSongIndex toSetIndex toPosition : Z)
  | RemoveSong (setIndex songIndex : Z).

Definition run (op : Op) : M unit :=
  match op with
  | AddSong i s d n => addSong i s d n
  | MoveSong f fs t tp => moveSong f fs t tp
  | RemoveSong i k => removeSong i k
  end.

(** The document after the call, whether it returned or threw. *)
Definition after (op : Op) (this : t) : t := (run op this).1.

(** The documents after each operation of a sequence, in order. *)
Fixpoint states_after (this : t) (ops : list Op) : list t :=
  match ops with
  | [] => []
  | op :: ops' => after op this :: states_after (after op this) ops'
  end.

(** A duration that is absent counts as 0. *)
Definition entry_seconds (song : Entry.t) : Z := default 0 (Entry.duration song).

Definition sum_Z (l : list Z) : Z := foldr Z.add 0 l.

(** The sets of a setlist, empty slots left out. *)
Definition present (sets : list (option SetDoc.t)) : list SetDoc.t := omap id sets.

(** A slot of [sets] as the hook's callback leaves it. *)
Definition visited (slot : option SetDoc.t) : option SetDoc.t :=
  (fun set => SetDoc.with_duration set (songs_total (SetDoc.songs set))) <$> slot.

(** The entries of a slot of [sets], nothing for an empty slot. *)
Definition slot_songs (slot : option SetDoc.t) : option (list Entry.t) :=
  SetDoc.songs <$> slot.

(** Version numbers grow by exactly 1 from each record to the next. *)
Definition consecutive (l : list Z) : Prop :=
  forall (i : nat) (a b : Z), l !! i = Some a -> l !! S i = Some b -> b = a + 1.

(** The version history is consecutive and, when it has a record, the last
    one carries the current version. *)
Definition version_consistent (this : t) : Prop :=
  consecutive (VersionRecord.version <$> versionHistory this) /\
  forall r, last (versionHistory this) = Some r -> VersionRecord.version r = version this.

(** [x] put at index [k] of [l]. *)
Definition insert_at {A : Type} (k : nat) (x : A) (l : list A) : list A :=
  take k l ++ x :: drop k l.

(** [toPosition] clamped to [0, len]. *)
Definition clamped_position (toPosition : Z) (len : nat) : nat :=
  Z.to_nat (Z.max 0 (Z.min toPosition (Z.of_nat len))).

(** [toPosition] clamped to [0, len] when it is not negative; a negative
    [toPosition] counted back from the end, and not below 0. *)
Definition end_relative_position (toPosition : Z) (len : nat) : nat :=
  if bool_decide (0 <= toPosition) then clamped_position toPosition len
  else Z.to_nat (Z.max 0 (Z.of_nat len + toPosition)).

(** [l'] is [l] with the entry at each index [k] given order [k + 1]. *)
Definition renumbered (l l' : list Entry.t) : Prop :=
  length l' = length l /\
  forall (k : nat) (e : Entry.t),
    l !! k = Some e -> l' !! k = Some (Entry.with_order e (Z.of_nat k + 1)).

(** What a valid [moveSong] call leaves behind, the insertion index being
    [position toPosition length]: the call returns; the destination set
    holds its former entries (the source's remaining entries when both are
    the same set) with the moved entry at that index, renumbered; a distinct
    source set holds its remaining entries, renumbered; nothing else
    changes. *)
Definition moved (position : Z -> nat -> nat) (this : t)
    (f fs t tp : Z) (src dst : SetDoc.t) (song : Entry.t) : Prop :=
  let r := moveSong f fs t tp this in
  let rest := delete (Z.to_nat fs) (SetDoc.songs src) in
  let base := if bool_decide (f = t) then rest else SetDoc.songs dst in
  r.2 = inr tt /\
  (exists l, set_at (sets r.1) t = Some (SetDoc.with_songs dst l) /\
             renumbered (insert_at (position tp (length base)) song base) l) /\
  (f <> t ->
   exists l, set_at (sets r.1) f = Some (SetDoc.with_songs src l) /\
             renumbered rest l) /\
  (forall j, j <> f -> j <> t -> js_index (sets r.1) j = js_index (sets this) j) /\
  length (sets r.1) = length (sets this) /\
  with_sets r.1 (sets this) = this.

(** [i] addresses an element of [l]. *)
Definition in_range {A : Type} (l : list A) (i : Z) : Prop :=
  0 <= i < Z.of_nat (length l).

Definition out_of_range (sets : list (option SetDoc.t)) (i : Z) : Prop :=
  ~ in_range sets i.

(** No set is present at [i]: [i] is out of range, or addresses a slot left
    empty by a write past the end of the array. *)
Definition no_set_at (sets : list (option SetDoc.t)) (i : Z) : Prop :=
  ~ in_range sets i \/ js_index sets i = Some None.

(** The two errors [moveSong] throws, the spec's InvalidReference. *)
Definition InvalidReference (e : Exn) : Prop :=
  e = Error "Invalid set index" \/ e = Error "Invalid song index".

(** [moveSong] fails exactly on a missing set ([missing] says what that
    means) or a song index out of range of the source set; a failure is an
    InvalidReference and leaves the document as it was. *)
Definition moveSong_fails_iff (missing : list (option SetDoc.t) -> Z -> Prop)
    (this : t) (f fs t tp : Z) : Prop :=
  let r := moveSong f fs t tp this in
  ((exists e, r.2 = inl e) <->
   (missing (sets this) f \/ missing (sets this) t \/
    exists src, set_at (sets this) f = Some src /\ ~ in_range (SetDoc.songs src) fs)) /\
  (forall e, r.2 = inl e -> InvalidReference e /\ r.1 = this).

(** The [order] values of the set at index [i], none when no set is there. *)
Definition orders_at (this : t) (i : nat) : list Z :=
  match set_at (sets this) (Z.of_nat i) with
  | Some set => Entry.order <$> SetDoc.songs set
  | None => []
  end.

(** [v] was an order of set [i] before an operation and is none after it. *)
Definition retired (before after : t) (i : nat) (v : Z) : Prop :=
  v ∈ orders_at before i /\ v ∉ orders_at after i.

(** No order retired from set [i] by [op] is given out again by the
    [addSong] that follows. *)
Definition never_reuses_retired (this : t) (op : Op) (i : nat)
    (songId : ObjectId) (duration : option Z) (notes : string) : Prop :=
  forall v, retired this (after op this) i v ->
            v ∉ orders_at (after (AddSong i songId duration notes) (after op this)) i.

(** [o] is one more than the largest order of [songs], 1 when there is
    none. *)
Definition one_past_max (songs : list Entry.t) (o : Z) : Prop :=
  (songs = [] /\ o = 1) \/
  (exists m, m ∈ (Entry.order <$> songs) /\
             (forall x, x ∈ (Entry.order <$> songs) -> x <= m) /\ o = m + 1).

(** Some stored band with id [bandId] lists [userId] as a member. *)
Definition member_of_band (docs : list Band.t) (bandId userId : ObjectId) : Prop :=
  exists b, b ∈ docs /\ Band._id b = bandId /\ Band.hasMember b userId = true.

(** The access check settles with an answer. *)
Definition never_throws (db : BandCollection) (this : t) (userId : ObjectId) : Prop :=
  exists answer, isAccessibleBy db this userId = Resolved answer.

End Vocabulary.

(** ** Vocabulary of the further properties *)




(** The entries of [l] with their orders blanked. *)
Definition unordered (l : list Entry.t) : list Entry.t :=
  (fun e => Entry.with_order e 0) <$> l.

(** The value of a decimal digit. *)
Definition digit (c : ascii) : option Z :=
  let n := nat_of_ascii c in
  if bool_decide (48 <= n <= 57)%nat then Some (Z.of_nat (n - 48)) else None.

Definition two_digits (a b : ascii) : option Z :=
  x ← digit a; y ← digit b; Some (10 * x + y).

(** The seconds that a clock string "HH:MM:SS" stands for. *)
Definition read_clock (s : string) : option Z :=
  match s with
  | String h1 (String h0 (String c1 (String m1 (String m0
      (String c2 (String s1 (String s0 EmptyString))))))) =>
      if bool_decide (c1 = ":"%char /\ c2 = ":"%char) then
        h ← two_digits h1 h0; m ← two_digits m1 m0; s ← two_digits s1 s0;
        Some (3600 * h + 60 * m + s)
      else None
  | _ => None
  end.

(** The seconds that a string "MM:SS" stands for. *)
Definition read_minutes (s : string) : option Z :=
  match s with
  | String m1 (String m0 (String c (String s1 (String s0 EmptyString)))) =>
      if bool_decide (c = ":"%char) then
        m ← two_digits m1 m0; s ← two_digits s1 s0; Some (60 * m + s)
      else None
  | _ => None
  end.

(** [n] is printed on two digits that read back as [n]. *)
Definition two_digit_field (n : nat) : bool :=
  match padStart_0 2 (decimal n) with
  | String a (String b EmptyString) => bool_decide (two_digits a b = Some (Z.of_nat n))
  | _ => false
  end.

(** ** Example documents *)

(** A new band whose creator is already listed, as a plain member. *)
Definition band_listed_creator : Band.t :=
  Band.mk "b1" "Trio" "" [Band.mkMember "u1" Band.member [Band.add_songs]] "u1" true.

Definition entry (songId : ObjectId) (order seconds : Z) : Entry.t :=
  Entry.mk songId order (Some seconds) "" false.

(** The two-set scenario of the specification. *)
Definition two_sets : Setlist.t :=
  Setlist.with_sets (Setlist.create "Gig" "u1")
    [Some (SetDoc.mk "Set 1" 0 [entry "A" 1 180; entry "B" 2 200]);
     Some (SetDoc.mk "Set 2" 0 [entry "C" 1 150])].

(** One set of three songs. *)
Definition three_songs : Setlist.t :=
  Setlist.with_sets (Setlist.create "Gig" "u1")
    [Some (SetDoc.mk "Set 1" 0 [entry "A" 1 180; entry "B" 2 200; entry "C" 3 150])].

(** A new setlist after [addSong(1, ...)]: slot 0 is empty. *)
Definition second_set_only : Setlist.t :=
  (Setlist.addSong 1 "A" (Some 180) "" (Setlist.create "Gig" "u1")).1.

(** A private setlist of band "b1", owned by "u1". *)
Definition band_setlist : Setlist.t :=
  Setlist.mk "Gig" "" None "" 0 [] "u1" (Some "b1") false 1 [].

(** A new band that does not list its creator. *)
Definition band_unlisted_creator : Band.t :=
  Band.mk "b2" "Duo" "" [Band.mkMember "u2" Band.member [Band.add_songs]] "u1" true.

(** A song of band "b1", owned by "u1", 3 minutes 45 long. *)
Definition band_song : Song.t :=
  Song.mk "Tune" "" (Some 225) "" 0 [] "" "" "" "" "u1" (Some "b1").

(** * Properties *)

(** ** Band: the creation hook *)

Lemma find_existsb {A : Type} (f : A -> bool) (l : list A) :
  existsb f l = bool_decide (is_Some (List.find f l)).
Proof.
  induction l as [|a l IH]; [reflexivity|].
  cbn [existsb List.find]. destruct (f a); [reflexivity | exact IH].
Qed.

Lemma find_snoc_fresh {A : Type} (f : A -> bool) (l : list A) (a : A) :
  List.find f l = None -> f a = true -> List.find f (l ++ [a]) = Some a.
Proof.
  induction l as [|b l IH]; simpl; intros Hnone Ha.
  - now rewrite Ha.
  - destruct (f b); [discriminate|]. now apply IH.
Qed.

Lemma same_id_refl (a : ObjectId) : same_id a a = true.
Proof. apply String.eqb_refl. Qed.

Lemma same_id_eq (a b : ObjectId) : same_id a b = true <-> a = b.
Proof. apply String.eqb_eq. Qed.

(** X3: the creation hook makes the creator of a new band a member. *)
Lemma Band_preSave_creator_member (this : Band.t) :
  Band.isNew this = true ->
  Band.hasMember (Band.preSave this) (Band.createdBy this) = true.
Proof.
  intros Hnew. unfold Band.preSave. rewrite Hnew.
  destruct (Band.find_member this (Band.createdBy this)) as [m|] eqn:Hfind.
  - unfold Band.hasMember. rewrite find_existsb.
    apply bool_decide_eq_true. unfold Band.find_member in Hfind. eauto.
  - unfold Band.hasMember, Band.with_members; simpl.
    rewrite existsb_app; simpl. rewrite same_id_refl.
    now rewrite !orb_true_r.
Qed.

(** X4: a creator that the creation hook had to add is a leader and holds
    every permission. *)
Lemma Band_preSave_added_creator (this : Band.t) (p : Band.Permission) :
  Band.isNew this = true ->
  Band.hasMember this (Band.createdBy this) = false ->
  Band.isLeader (Band.preSave this) (Band.createdBy this) = true /\
  Band.hasPermission (Band.preSave this) (Band.createdBy this) p = true.
Proof.
  intros Hnew Hnot.
  assert (Hfind : Band.find_member this (Band.createdBy this) = None).
  { unfold Band.hasMember in Hnot. rewrite find_existsb in Hnot.
    apply bool_decide_eq_false in Hnot. unfold Band.find_member.
    destruct (List.find _ _); [exfalso; eauto | reflexivity]. }
  unfold Band.preSave. rewrite Hnew, Hfind.
  unfold Band.isLeader, Band.hasPermission, Band.find_member, Band.with_members; simpl.
  unfold Band.find_member in Hfind.
  rewrite (find_snoc_fresh _ _ _ Hfind) by apply same_id_refl.
  split; reflexivity.
Qed.

(** C10, at the input where it fails: a new band that already lists its
    creator as a plain member with the single permission add_songs.  The
    hook finds the creator listed and pushes nothing, so after it the creator
    is a member, is no leader, and lacks remove_members. *)
Theorem Band_preSave_listed_creator_not_leader :
  Band.preSave band_listed_creator = band_listed_creator /\
  Band.hasMember (Band.preSave band_listed_creator) "u1" = true /\
  Band.isLeader (Band.preSave band_listed_creator) "u1" = false /\
  Band.hasPermission (Band.preSave band_listed_creator) "u1" Band.remove_members = false.
Proof. repeat split; reflexivity. Qed.

(** ** Setlist: access *)

Lemma find_is_Some_exists {A : Type} (f : A -> bool) (l : list A) :
  is_Some (List.find f l) <-> exists x, x ∈ l /\ f x = true.
Proof.
  split.
  - intros [x Hx]. apply find_some in Hx as [Hin Hf].
    exists x. split; [now apply list_elem_of_In | exact Hf].
  - intros (x & Hin & Hf). apply list_elem_of_In in Hin.
    destruct (List.find f l) eqn:Hfind; [eauto|].
    eapply find_none in Hfind; [|exact Hin]. congruence.
Qed.

Lemma findOne_member (docs : list Band.t) (b u : ObjectId) :
  is_Some (List.find (fun d => same_id (Band._id d) b && Band.hasMember d u) docs)
  <-> member_of_band docs b u.
Proof.
  rewrite find_is_Some_exists. unfold member_of_band.
  split; intros (d & Hin & H); exists d.
  - apply andb_true_iff in H as [H1 H2]. apply same_id_eq in H1. auto.
  - destruct H as [H1 H2]. split; [exact Hin|].
    apply andb_true_iff. split; [now apply same_id_eq | exact H2].
Qed.

(** C5: with the band collection answering, the access check resolves, and
    resolves to true exactly when the setlist is public, or the actor is its
    creator, or it has a band id and a stored band with that id lists the
    actor; a public setlist resolves to true for any actor, whatever the
    collection. *)
Theorem isAccessibleBy_read_iff (docs : list Band.t) (this : Setlist.t) (userId : ObjectId) :
  (Setlist.isAccessibleBy (Reachable docs) this userId = Resolved true <->
   (Setlist.isPublic this = true \/
    Setlist.createdBy this = userId \/
    exists b, Setlist.bandId this = Some b /\ member_of_band docs b userId)) /\
  never_throws (Reachable docs) this userId /\
  (Setlist.isPublic this = true ->
   forall db anyone, Setlist.isAccessibleBy db this anyone = Resolved true).
Proof.
  unfold never_throws, Setlist.isAccessibleBy.
  destruct (Setlist.isPublic this) eqn:Hpub.
  { repeat split; eauto. }
  destruct (same_id (Setlist.createdBy this) userId) eqn:Hown.
  { apply same_id_eq in Hown. repeat split; eauto. discriminate. }
  assert (Hne : Setlist.createdBy this <> userId).
  { intros Heq. apply same_id_eq in Heq. congruence. }
  destruct (Setlist.bandId this) as [b|] eqn:Hband; simpl.
  - split; [|split; [eauto | discriminate]].
    split.
    + intros H. right; right. exists b. split; [reflexivity|].
      apply findOne_member. injection H as H. now apply bool_decide_eq_true in H.
    + intros [H|[H|(b' & Hb & Hm)]]; [discriminate | contradiction |].
      injection Hb as <-. f_equal. apply bool_decide_eq_true.
      now apply findOne_member.
  - split; [|split; [eauto | discriminate]].
    split; [discriminate|].
    intros [H|[H|(b' & Hb & _)]]; [discriminate | contradiction | discriminate].
Qed.

(** C7 as stated fails: with the band collection unreachable, the check of a
    private band setlist for an actor who is not its creator settles with no
    answer; the rejection of [Band.findOne] is the check's own. *)
Lemma isAccessibleBy_rejects_when_unreachable :
  Setlist.isAccessibleBy Unreachable band_setlist "u2" = Rejected /\
  ~ never_throws Unreachable band_setlist "u2".
Proof.
  split; [reflexivity|]. intros [answer H]. discriminate H.
Qed.

(** C7, amended: a public setlist and the creator get true before any
    lookup, whatever the state of the band collection; with the collection
    answering the check always resolves, and a band id that no stored band
    carries contributes false, leaving the public and creator checks to
    decide; without a band id no lookup is made; the lookup is made, and its
    failure is the check's outcome, only for a private setlist with a band id
    and an actor other than the creator. *)
Theorem isAccessibleBy_missing_band (db : BandCollection) (this : Setlist.t) (userId : ObjectId) :
  let decided_locally :=
    Setlist.isPublic this || same_id (Setlist.createdBy this) userId in
  (decided_locally = true -> Setlist.isAccessibleBy db this userId = Resolved true) /\
  (forall docs, never_throws (Reachable docs) this userId) /\
  (forall docs b,
     Setlist.bandId this = Some b ->
     (forall d, d ∈ docs -> Band._id d <> b) ->
     Setlist.isAccessibleBy (Reachable docs) this userId = Resolved decided_locally) /\
  (Setlist.bandId this = None ->
   Setlist.isAccessibleBy db this userId = Resolved decided_locally) /\
  (forall b,
     decided_locally = false -> Setlist.bandId this = Some b ->
     Setlist.isAccessibleBy Unreachable this userId = Rejected).
Proof.
  unfold never_throws, Setlist.isAccessibleBy. simpl.
  destruct (Setlist.isPublic this); simpl.
  { repeat split; eauto. discriminate. }
  destruct (same_id (Setlist.createdBy this) userId); simpl.
  { repeat split; eauto. discriminate. }
  split; [discriminate|].
  split; [intros docs; destruct (Setlist.bandId this); simpl; eauto|].
  split.
  - intros docs b -> Habsent. simpl. f_equal.
    apply bool_decide_eq_false. rewrite findOne_member.
    intros (d & Hin & Hid & _). exact (Habsent d Hin Hid).
  - split; [intros ->; reflexivity|].
    intros b _ ->. reflexivity.
Qed.

(** ** Setlist: the pre-save hook *)

Section PreSave.
Import Setlist.

Lemma duration_or_0_seconds (song : Entry.t) : duration_or_0 song = entry_seconds song.
Proof.
  unfold duration_or_0, entry_seconds. destruct (Entry.duration song) as [d|]; simpl.
  - case_bool_decide; congruence.
  - reflexivity.
Qed.

Lemma sum_Z_cons (x : Z) (l : list Z) : sum_Z (x :: l) = x + sum_Z l.
Proof. reflexivity. Qed.

Lemma songs_fold_sum (songs : list Entry.t) (z : Z) :
  fold_left (fun setTotal song => setTotal + duration_or_0 song) songs z
  = z + sum_Z (entry_seconds <$> songs).
Proof.
  revert z. induction songs as [|e songs IH]; intros z.
  - simpl. lia.
  - cbn [fold_left]. rewrite IH, duration_or_0_seconds, fmap_cons, sum_Z_cons. lia.
Qed.

Lemma songs_total_sum (songs : list Entry.t) :
  songs_total songs = sum_Z (entry_seconds <$> songs).
Proof. unfold songs_total. now rewrite songs_fold_sum. Qed.

Lemma preSave_fold (l acc : list (option SetDoc.t)) (z : Z) :
  fold_left preSave_step l (z, acc)
  = (z + sum_Z (SetDoc.duration <$> present (visited <$> l)), acc ++ (visited <$> l)).
Proof.
  revert z acc. induction l as [|slot l IH]; intros z acc.
  - simpl. now rewrite Z.add_0_r, app_nil_r.
  - cbn [fold_left]. destruct slot as [set|]; cbn [preSave_step fst snd]; rewrite IH.
    + rewrite <- app_assoc. f_equal.
      change (present (visited <$> Some set :: l))
        with (SetDoc.with_duration set (songs_total (SetDoc.songs set))
              :: present (visited <$> l)).
      rewrite fmap_cons, sum_Z_cons. lia.
    + rewrite <- app_assoc. reflexivity.
Qed.

Lemma preSave_eq (this : t) :
  preSave this
  = with_totalDuration (with_sets this (visited <$> sets this))
      (sum_Z (SetDoc.duration <$> present (visited <$> sets this))).
Proof. unfold preSave. now rewrite preSave_fold. Qed.

Lemma preSave_sets (this : t) : sets (preSave this) = visited <$> sets this.
Proof. now rewrite preSave_eq. Qed.

Lemma preSave_total (this : t) :
  totalDuration (preSave this) = sum_Z (SetDoc.duration <$> present (visited <$> sets this)).
Proof. now rewrite preSave_eq. Qed.

Lemma visited_twice (l : list (option SetDoc.t)) : visited <$> (visited <$> l) = visited <$> l.
Proof.
  rewrite <- list_fmap_compose. apply list_fmap_ext.
  intros _ [set|] _; reflexivity.
Qed.

End PreSave.

(** C2: after the pre-save hook every set's [duration] is the sum of its
    entries' durations, an absent duration counting as 0, and
    [totalDuration] is the sum of the sets' durations; the hook leaves the
    entries of every set and the slots of [sets] in place; run on its own
    result it changes nothing. *)
Theorem preSave_recomputes_durations (this : Setlist.t) :
  let this' := Setlist.preSave this in
  (forall (i : nat) (set' : SetDoc.t),
     Setlist.sets this' !! i = Some (Some set') ->
     SetDoc.duration set' = sum_Z (entry_seconds <$> SetDoc.songs set')) /\
  Setlist.totalDuration this' = sum_Z (SetDoc.duration <$> present (Setlist.sets this')) /\
  slot_songs <$> Setlist.sets this' = slot_songs <$> Setlist.sets this /\
  Setlist.preSave this' = this'.
Proof.
  cbv zeta. repeat split.
  - intros i set'. rewrite preSave_sets, list_lookup_fmap.
    destruct (Setlist.sets this !! i) as [[set|]|]; simpl; try discriminate.
    intros [= <-]. simpl. apply songs_total_sum.
  - now rewrite preSave_total, preSave_sets.
  - rewrite preSave_sets, <- list_fmap_compose. apply list_fmap_ext.
    intros _ [set|] _; reflexivity.
  - rewrite (preSave_eq (Setlist.preSave this)), preSave_sets, visited_twice.
    now rewrite (preSave_eq this).
Qed.

(** ** Setlist: the version history *)

Lemma consecutive_snoc (l : list Z) (v : Z) :
  consecutive l -> (forall a, last l = Some a -> a = v) -> consecutive (l ++ [v + 1]).
Proof.
  intros Hl Hlast i a b Ha Hb.
  destruct (decide (S i < length l)%nat) as [Hlt|Hge].
  - rewrite lookup_app_l in Ha by lia. rewrite lookup_app_l in Hb by lia.
    now apply (Hl i).
  - assert (Hi : (i < length l)%nat).
    { apply lookup_lt_Some in Hb. rewrite length_app in Hb. simpl in Hb.
      apply lookup_lt_Some in Ha. rewrite length_app in Ha. simpl in Ha. lia. }
    rewrite lookup_app_l in Ha by lia.
    rewrite lookup_app_r in Hb by lia.
    replace (S i - length l)%nat with 0%nat in Hb by lia. simpl in Hb.
    injection Hb as <-. f_equal. symmetry. apply Hlast.
    rewrite last_lookup. replace (Nat.pred (length l)) with i by lia. exact Ha.
Qed.

(** A setlist created with the schema defaults has a consistent history. *)
Lemma create_version_consistent (title : string) (owner : ObjectId) :
  version_consistent (Setlist.create title owner).
Proof.
  split; simpl.
  - intros i a b Ha. discriminate Ha.
  - intros r Hr. discriminate Hr.
Qed.

(** C3: a commit appends exactly one record, which carries the previous
    version plus 1 (and the actor and the description given), and makes
    that number the setlist's version; and it keeps the history consistent:
    versions grow by 1 from each record to the next and the last record
    carries the current version. *)
Theorem commit_appends_next_version
    (this : Setlist.t) (actorId : ObjectId) (description : string) (now : Z) :
  version_consistent this ->
  let this' := Setlist.commit actorId description now this in
  Setlist.versionHistory this'
    = Setlist.versionHistory this
      ++ [VersionRecord.mk (Setlist.version this + 1) actorId now description] /\
  Setlist.version this' = Setlist.version this + 1 /\
  last (Setlist.versionHistory this')
    = Some (VersionRecord.mk (Setlist.version this') actorId now description) /\
  version_consistent this'.
Proof.
  intros [Hcons Hlast]. cbv zeta. unfold Setlist.commit. simpl.
  split; [reflexivity|]. split; [reflexivity|].
  split; [apply last_snoc|].
  split; simpl.
  - rewrite fmap_app. simpl. apply consecutive_snoc; [exact Hcons|].
    intros a Ha. rewrite fmap_last in Ha.
    destruct (last (Setlist.versionHistory this)) as [r|] eqn:Hr; [|discriminate].
    injection Ha as <-. now apply Hlast.
  - intros r. rewrite last_snoc. intros [= <-]. reflexivity.
Qed.

(** Two commits on a new setlist: versions 2 and 3. *)
Lemma commit_appends_next_version_witness :
  version_consistent (Setlist.create "Gig" "u1") /\
  Setlist.version
    (Setlist.commit "u2" "moved a song" 7
       (Setlist.commit "u1" "added a song" 5 (Setlist.create "Gig" "u1"))) = 3.
Proof.
  split; [apply create_version_consistent|].
  pose proof (commit_appends_next_version
                (Setlist.create "Gig" "u1") "u1" "added a song" 5
                (create_version_consistent "Gig" "u1")) as (_ & Hv1 & _ & Hc1).
  pose proof (commit_appends_next_version _ "u2" "moved a song" 7 Hc1) as (_ & Hv2 & _).
  rewrite Hv2, Hv1. reflexivity.
Defined.

(** ** Setlist: reading and writing slots *)

Section Slots.
Import Setlist.

Lemma js_index_None {A : Type} (l : list A) (i : Z) :
  js_index l i = None <-> ~ in_range l i.
Proof.
  unfold js_index, in_range. case_bool_decide as Hi.
  - rewrite lookup_ge_None. lia.
  - split; [lia | reflexivity].
Qed.

Lemma js_index_Some {A : Type} (l : list A) (i : Z) (x : A) :
  js_index l i = Some x <-> 0 <= i /\ l !! Z.to_nat i = Some x.
Proof.
  unfold js_index. case_bool_decide as Hi.
  - tauto.
  - split; [discriminate | lia].
Qed.

Lemma js_index_nat {A : Type} (l : list A) (i : nat) : js_index l (Z.of_nat i) = l !! i.
Proof.
  unfold js_index. rewrite bool_decide_eq_true_2 by lia. now rewrite Nat2Z.id.
Qed.

Lemma set_at_Some (sets : list (option SetDoc.t)) (i : Z) (set : SetDoc.t) :
  set_at sets i = Some set <-> 0 <= i /\ sets !! Z.to_nat i = Some (Some set).
Proof.
  unfold set_at. rewrite <- js_index_Some.
  destruct (js_index sets i) as [[s|]|]; split; congruence.
Qed.

Lemma set_at_None (sets : list (option SetDoc.t)) (i : Z) :
  set_at sets i = None <-> no_set_at sets i.
Proof.
  unfold set_at, no_set_at. rewrite <- js_index_None.
  destruct (js_index sets i) as [[s|]|]; split; try tauto; try congruence.
  intros [H|H]; congruence.
Qed.

Lemma set_at_insert_eq (sets : list (option SetDoc.t)) (i : Z) (set set' : SetDoc.t) :
  set_at sets i = Some set ->
  set_at (<[Z.to_nat i := Some set']> sets) i = Some set'.
Proof.
  rewrite !set_at_Some. intros [Hi Hset]. split; [exact Hi|].
  apply list_lookup_insert_eq. now apply lookup_lt_Some in Hset.
Qed.

Lemma js_index_insert_ne {A : Type} (l : list A) (i j : Z) (x : A) :
  0 <= i -> i <> j -> js_index (<[Z.to_nat i := x]> l) j = js_index l j.
Proof.
  intros Hi Hne. unfold js_index. case_bool_decide; [|reflexivity].
  apply list_lookup_insert_ne. lia.
Qed.

Lemma set_at_insert_ne (sets : list (option SetDoc.t)) (i j : Z) (slot : option SetDoc.t) :
  0 <= i -> i <> j -> set_at (<[Z.to_nat i := slot]> sets) j = set_at sets j.
Proof. intros Hi Hne. unfold set_at. now rewrite js_index_insert_ne. Qed.

Lemma get_set_at (i : Z) (this : t) : get_set i this = (this, inr (set_at (sets this) i)).
Proof. reflexivity. Qed.

Lemma get_songs_at (i : Z) (this : t) (set : SetDoc.t) :
  set_at (sets this) i = Some set -> get_songs i this = (this, inr (SetDoc.songs set)).
Proof. intros H. unfold get_songs. now rewrite H. Qed.

Lemma put_songs_at (i : Z) (l : list Entry.t) (this : t) (set : SetDoc.t) :
  set_at (sets this) i = Some set ->
  put_songs i l this = (with_songs_at this i set l, inr tt).
Proof. intros H. unfold put_songs. now rewrite H. Qed.

Lemma set_at_with_songs_at (this : t) (i : Z) (set : SetDoc.t) (l : list Entry.t) :
  set_at (sets this) i = Some set ->
  set_at (sets (with_songs_at this i set l)) i = Some (SetDoc.with_songs set l).
Proof. intros H. simpl. now apply set_at_insert_eq with (set := set). Qed.

Lemma set_at_with_songs_at_ne (this : t) (i j : Z) (set : SetDoc.t) (l : list Entry.t) :
  set_at (sets this) i = Some set -> i <> j ->
  set_at (sets (with_songs_at this i set l)) j = set_at (sets this) j.
Proof.
  intros H Hne. simpl. apply set_at_insert_ne; [|exact Hne].
  now apply set_at_Some in H.
Qed.

Lemma with_songs_at_twice (this : t) (i : Z) (set : SetDoc.t) (l l' : list Entry.t) :
  with_songs_at (with_songs_at this i set l) i (SetDoc.with_songs set l) l'
  = with_songs_at this i set l'.
Proof.
  unfold with_songs_at, with_sets. simpl. now rewrite list_insert_insert_eq.
Qed.

(** Reading [bind] at a document. *)
Lemma bind_at {A B : Type} (m : M A) (k : A -> M B) (this this' : t) (a : A) :
  m this = (this', inr a) -> (m ≫= k) this = k a this'.
Proof. intros H. unfold mbind, M_bind, bind. now rewrite H. Qed.

Lemma js_assign_length {A : Type} (arr : list (option A)) (i : nat) (v : A) :
  (i < length (js_assign arr i v))%nat.
Proof.
  unfold js_assign. case_bool_decide.
  - now rewrite length_insert.
  - rewrite !length_app, length_replicate. simpl. lia.
Qed.

Lemma js_assign_lookup_eq {A : Type} (arr : list (option A)) (i : nat) (v : A) :
  js_assign arr i v !! i = Some (Some v).
Proof.
  unfold js_assign. case_bool_decide.
  - now apply list_lookup_insert_eq.
  - rewrite lookup_app_r by lia.
    rewrite lookup_app_r by (rewrite length_replicate; lia).
    rewrite length_replicate. now replace (i - length arr - (i - length arr))%nat with 0%nat by lia.
Qed.

(** Away from [i] the array reads as before: a slot created by the
    extension is empty, and an index past the old end read [undefined]. *)
Lemma js_assign_lookup_ne {A : Type} (arr : list (option A)) (i j : nat) (v : A) (x : A) :
  i <> j -> js_assign arr i v !! j = Some (Some x) <-> arr !! j = Some (Some x).
Proof.
  intros Hne. unfold js_assign. case_bool_decide.
  - now rewrite list_lookup_insert_ne.
  - destruct (decide (j < length arr)%nat) as [Hj|Hj].
    + now rewrite lookup_app_l.
    + rewrite lookup_app_r by lia. rewrite (proj2 (lookup_ge_None arr j)) by lia.
      split; [|discriminate].
      destruct (decide (j - length arr < i - length arr)%nat) as [Hlt|Hge].
      * rewrite lookup_app_l by (rewrite length_replicate; lia).
        rewrite lookup_replicate_2 by lia. discriminate.
      * rewrite lookup_app_r by (rewrite length_replicate; lia).
        rewrite length_replicate.
        destruct (j - length arr - (i - length arr))%nat eqn:E; [lia|].
        simpl. discriminate.
Qed.

Lemma set_at_js_assign_eq (sets : list (option SetDoc.t)) (i : nat) (v : SetDoc.t) :
  set_at (js_assign sets i v) (Z.of_nat i) = Some v.
Proof. apply set_at_Some. rewrite Nat2Z.id. split; [lia | apply js_assign_lookup_eq]. Qed.

Lemma set_at_js_assign_ne (sets : list (option SetDoc.t)) (i : nat) (j : Z) (v : SetDoc.t) :
  Z.of_nat i <> j -> set_at (js_assign sets i v) j = set_at sets j.
Proof.
  intros Hne.
  destruct (set_at sets j) as [x|] eqn:Hx.
  - apply set_at_Some in Hx as [Hj Hx]. apply set_at_Some. split; [exact Hj|].
    apply js_assign_lookup_ne; [lia | exact Hx].
  - destruct (set_at (js_assign sets i v) j) as [y|] eqn:Hy; [|reflexivity].
    apply set_at_Some in Hy as [Hj Hy].
    apply js_assign_lookup_ne in Hy; [|lia].
    assert (set_at sets j = Some y) by (apply set_at_Some; auto). congruence.
Qed.

End Slots.

(** ** Setlist: what the three methods compute *)

Section Methods.
Import Setlist.

(** Run the first call of a method body, [H] saying what that call does at
    the document reached so far. *)
Local Tactic Notation "step" open_constr(H) := rewrite (bind_at _ _ _ _ _ H).

Lemma addSong_existing (i : nat) (s : ObjectId) (d : option Z) (n : string)
    (this : Setlist.t) (set : SetDoc.t) :
  set_at (sets this) (Z.of_nat i) = Some set ->
  addSong i s d n this
  = (with_songs_at this (Z.of_nat i) set
       (SetDoc.songs set ++ [Entry.mk s (nextOrder (SetDoc.songs set)) d n false]),
     inr tt).
Proof.
  intros Hset. unfold addSong.
  rewrite (bind_at _ _ this this (Some set)) by (rewrite get_set_at; now rewrite Hset).
  rewrite (bind_at _ _ this this tt) by reflexivity.
  rewrite (bind_at _ _ this this (SetDoc.songs set)) by now apply get_songs_at.
  now apply put_songs_at.
Qed.

Lemma addSong_new (i : nat) (s : ObjectId) (d : option Z) (n : string) (this : Setlist.t) :
  set_at (sets this) (Z.of_nat i) = None ->
  addSong i s d n this
  = (with_songs_at (with_sets this (js_assign (sets this) i (new_set i)))
       (Z.of_nat i) (new_set i) [Entry.mk s 1 d n false],
     inr tt).
Proof.
  intros Hset. unfold addSong.
  rewrite (bind_at _ _ this this None) by (rewrite get_set_at; now rewrite Hset).
  set (this1 := with_sets this (js_assign (sets this) i (new_set i))).
  assert (H1 : set_at (sets this1) (Z.of_nat i) = Some (new_set i))
    by apply set_at_js_assign_eq.
  rewrite (bind_at _ _ this this1 tt) by reflexivity.
  rewrite (bind_at _ _ this1 this1 []) by now rewrite (get_songs_at _ _ _ H1).
  now rewrite (put_songs_at _ _ _ _ H1).
Qed.

Lemma moveSong_no_set (f fs t tp : Z) (this : Setlist.t) :
  set_at (sets this) f = None \/ set_at (sets this) t = None ->
  moveSong f fs t tp this = (this, inl (Error "Invalid set index")).
Proof.
  intros H. unfold moveSong.
  step (get_set_at f this).
  step (get_set_at t this).
  destruct (set_at (sets this) f), (set_at (sets this) t), H; try discriminate; reflexivity.
Qed.

Lemma moveSong_no_song (f fs t tp : Z) (this : Setlist.t) (src dst : SetDoc.t) :
  set_at (sets this) f = Some src -> set_at (sets this) t = Some dst ->
  js_index (SetDoc.songs src) fs = None ->
  moveSong f fs t tp this = (this, inl (Error "Invalid song index")).
Proof.
  intros Hf Ht Hs. unfold moveSong.
  step (get_set_at f this).
  step (get_set_at t this).
  now rewrite Hf, Ht, Hs.
Qed.

(** A valid move within one set. *)
Lemma moveSong_within (f fs tp : Z) (this : Setlist.t) (src : SetDoc.t) (song : Entry.t) :
  set_at (sets this) f = Some src ->
  js_index (SetDoc.songs src) fs = Some song ->
  moveSong f fs f tp this
  = (with_songs_at this f src
       (renumber (splice_insert tp song (delete (Z.to_nat fs) (SetDoc.songs src)))),
     inr tt).
Proof.
  intros Hf Hs. unfold moveSong.
  step (get_set_at f this).
  step (get_set_at f this).
  rewrite Hf, Hs.
  step (get_songs_at _ _ _ Hf).
  step (put_songs_at _ _ _ _ Hf).
  pose proof (set_at_with_songs_at this f src
                (delete (Z.to_nat fs) (SetDoc.songs src)) Hf) as H1.
  step (get_songs_at _ _ _ H1).
  step (put_songs_at _ _ _ _ H1).
  rewrite with_songs_at_twice.
  pose proof (set_at_with_songs_at this f src
                (splice_insert tp song (delete (Z.to_nat fs) (SetDoc.songs src))) Hf) as H2.
  step (get_songs_at _ _ _ H2).
  step (put_songs_at _ _ _ _ H2).
  rewrite with_songs_at_twice.
  rewrite bool_decide_eq_false_2 by auto.
  reflexivity.
Qed.

(** A valid move from one set to another. *)
Lemma moveSong_across (f fs t tp : Z) (this : Setlist.t) (src dst : SetDoc.t) (song : Entry.t) :
  f <> t ->
  set_at (sets this) f = Some src -> set_at (sets this) t = Some dst ->
  js_index (SetDoc.songs src) fs = Some song ->
  moveSong f fs t tp this
  = (with_songs_at
       (with_songs_at
          (with_songs_at this f src (delete (Z.to_nat fs) (SetDoc.songs src)))
          t dst (renumber (splice_insert tp song (SetDoc.songs dst))))
       f (SetDoc.with_songs src (delete (Z.to_nat fs) (SetDoc.songs src)))
       (renumber (delete (Z.to_nat fs) (SetDoc.songs src))),
     inr tt).
Proof.
  intros Hne Hf Ht Hs. unfold moveSong.
  step (get_set_at f this).
  step (get_set_at t this).
  rewrite Hf, Ht, Hs.
  step (get_songs_at _ _ _ Hf).
  step (put_songs_at _ _ _ _ Hf).
  set (rest := delete (Z.to_nat fs) (SetDoc.songs src)).
  set (this1 := with_songs_at this f src rest).
  assert (H1 : set_at (sets this1) t = Some dst).
  { unfold this1. now rewrite (set_at_with_songs_at_ne this f t src rest Hf Hne). }
  step (get_songs_at _ _ _ H1).
  step (put_songs_at _ _ _ _ H1).
  pose proof (set_at_with_songs_at this1 t dst
                (splice_insert tp song (SetDoc.songs dst)) H1) as H2.
  step (get_songs_at _ _ _ H2).
  step (put_songs_at _ _ _ _ H2).
  rewrite with_songs_at_twice.
  set (this3 := with_songs_at this1 t dst _).
  assert (H3 : set_at (sets this3) f = Some (SetDoc.with_songs src rest)).
  { unfold this3. rewrite (set_at_with_songs_at_ne this1 t f dst _ H1) by auto.
    unfold this1. now apply set_at_with_songs_at. }
  rewrite bool_decide_eq_true_2 by exact Hne.
  step (get_songs_at _ _ _ H3).
  now rewrite (put_songs_at _ _ _ _ H3).
Qed.

Lemma removeSong_no_set (i k : Z) (this : Setlist.t) :
  set_at (sets this) i = None ->
  removeSong i k this = (this, inl (Error "Invalid set index")).
Proof.
  intros H. unfold removeSong.
  step (get_set_at i this). now rewrite H.
Qed.

Lemma removeSong_no_song (i k : Z) (this : Setlist.t) (src : SetDoc.t) :
  set_at (sets this) i = Some src -> js_index (SetDoc.songs src) k = None ->
  removeSong i k this = (this, inl (Error "Invalid song index")).
Proof.
  intros H Hk. unfold removeSong.
  step (get_set_at i this). now rewrite H, Hk.
Qed.

Lemma removeSong_valid (i k : Z) (this : Setlist.t) (src : SetDoc.t) (song : Entry.t) :
  set_at (sets this) i = Some src -> js_index (SetDoc.songs src) k = Some song ->
  removeSong i k this
  = (with_songs_at this i src (renumber (delete (Z.to_nat k) (SetDoc.songs src))), inr tt).
Proof.
  intros H Hk. unfold removeSong.
  step (get_set_at i this). rewrite H, Hk.
  now apply put_songs_at.
Qed.

End Methods.

(** ** Setlist: renumbering and insertion *)

Section Renumbering.
Import Setlist.

Lemma renumber_renumbered (l : list Entry.t) : renumbered l (renumber l).
Proof.
  unfold renumbered, renumber. split.
  - apply length_imap.
  - intros k e Hk. now rewrite list_lookup_imap, Hk.
Qed.

Lemma renumbered_orders (l l' : list Entry.t) :
  renumbered l l' -> Entry.order <$> l' = seqZ 1 (Z.of_nat (length l')).
Proof.
  intros [Hlen Hl]. apply list_eq. intros k.
  rewrite list_lookup_fmap.
  destruct (l !! k) as [e|] eqn:He.
  - rewrite (Hl k e He). simpl.
    apply lookup_lt_Some in He.
    rewrite lookup_seqZ_lt by lia. f_equal. lia.
  - apply lookup_ge_None in He.
    rewrite (proj2 (lookup_ge_None l' k)) by lia. simpl.
    symmetry. apply lookup_seqZ_ge. lia.
Qed.

Lemma renumbered_contiguous (l l' : list Entry.t) : renumbered l l' -> contiguous l'.
Proof. intros H. unfold contiguous. now rewrite (renumbered_orders l l' H). Qed.

Lemma renumber_contiguous (l : list Entry.t) : contiguous (renumber l).
Proof. apply (renumbered_contiguous l), renumber_renumbered. Qed.

Lemma splice_start_position (len : nat) (start : Z) :
  splice_start len start = end_relative_position start len.
Proof.
  unfold splice_start, end_relative_position, clamped_position.
  repeat case_bool_decide; lia.
Qed.

Lemma end_relative_clamped (toPosition : Z) (len : nat) :
  0 <= toPosition -> end_relative_position toPosition len = clamped_position toPosition len.
Proof. intros H. unfold end_relative_position. now rewrite bool_decide_eq_true_2. Qed.

Lemma splice_insert_at {A : Type} (start : Z) (x : A) (l : list A) :
  splice_insert start x l = insert_at (end_relative_position start (length l)) x l.
Proof. unfold splice_insert, insert_at. now rewrite splice_start_position. Qed.

Lemma with_songs_at_effect (this : Setlist.t) (i : Z) (set : SetDoc.t) (l : list Entry.t) :
  set_at (sets this) i = Some set ->
  set_at (sets (with_songs_at this i set l)) i = Some (SetDoc.with_songs set l) /\
  (forall j, j <> i ->
     js_index (sets (with_songs_at this i set l)) j = js_index (sets this) j) /\
  length (sets (with_songs_at this i set l)) = length (sets this) /\
  with_sets (with_songs_at this i set l) (sets this) = this.
Proof.
  intros H. split; [now apply set_at_with_songs_at|].
  split.
  - intros j Hj. simpl. apply js_index_insert_ne; [|auto].
    now apply set_at_Some in H.
  - split; [apply length_insert | now destruct this].
Qed.

End Renumbering.

(** C4 as stated fails: moving the first of three songs to position -1 of
    its own set puts it before the last remaining song, at index 1, and not
    at -1 clamped to [0, 2], which is index 0. *)
Lemma moveSong_negative_position_not_clamped :
  Setlist.set_at (Setlist.sets three_songs) 0
    = Some (SetDoc.mk "Set 1" 0 [entry "A" 1 180; entry "B" 2 200; entry "C" 3 150]) /\
  js_index [entry "A" 1 180; entry "B" 2 200; entry "C" 3 150] 0 = Some (entry "A" 1 180) /\
  (Setlist.moveSong 0 0 0 (-1) three_songs).1
    = Setlist.with_sets three_songs
        [Some (SetDoc.mk "Set 1" 0 [entry "B" 1 200; entry "A" 2 180; entry "C" 3 150])] /\
  ~ moved clamped_position three_songs 0 0 0 (-1)
      (SetDoc.mk "Set 1" 0 [entry "A" 1 180; entry "B" 2 200; entry "C" 3 150])
      (SetDoc.mk "Set 1" 0 [entry "A" 1 180; entry "B" 2 200; entry "C" 3 150])
      (entry "A" 1 180).
Proof.
  split; [reflexivity|]. split; [reflexivity|]. split; [reflexivity|].
  intros (_ & (l & Hset & _ & Hl) & _).
  vm_compute in Hset. injection Hset as <-.
  specialize (Hl 0%nat (entry "A" 1 180) eq_refl). discriminate Hl.
Qed.

(** C4, amended: a valid [moveSong] call returns; it takes the entry out of
    the source set and puts it into the destination set at [toPosition]
    clamped to [0, length] when [toPosition] is not negative, and at
    [length + toPosition], not below 0, when it is negative ([length] being
    that of the destination once the entry is out); the destination's
    entries are then numbered 1..N in positional order, and so are those of
    a distinct source set; no other set and no other field changes. *)
Theorem moveSong_moves_and_renumbers
    (this : Setlist.t) (f fs t tp : Z) (src dst : SetDoc.t) (song : Entry.t) :
  Setlist.set_at (Setlist.sets this) f = Some src ->
  Setlist.set_at (Setlist.sets this) t = Some dst ->
  js_index (SetDoc.songs src) fs = Some song ->
  moved end_relative_position this f fs t tp src dst song.
Proof.
  intros Hf Ht Hs. unfold moved. cbv zeta.
  destruct (decide (f = t)) as [->|Hne].
  - assert (dst = src) as -> by congruence.
    rewrite (moveSong_within t fs tp this src song Hf Hs).
    rewrite bool_decide_eq_true_2 by reflexivity. cbn [fst snd].
    destruct (with_songs_at_effect this t src
                (Setlist.renumber (splice_insert tp song (delete (Z.to_nat fs) (SetDoc.songs src))))
                Hf) as (Hset & Hother & Hlen & Hframe).
    split; [reflexivity|]. split.
    { eexists. split; [exact Hset|].
      rewrite splice_insert_at. apply renumber_renumbered. }
    split; [contradiction|].
    split; [intros j Hj _; now apply Hother|].
    split; [exact Hlen | exact Hframe].
  - rewrite (moveSong_across f fs t tp this src dst song Hne Hf Ht Hs).
    rewrite bool_decide_eq_false_2 by exact Hne. cbn [fst snd].
    set (rest := delete (Z.to_nat fs) (SetDoc.songs src)).
    set (this1 := with_songs_at this f src rest).
    destruct (with_songs_at_effect this f src rest Hf) as (H1f & H1o & H1l & H1r).
    fold this1 in H1f, H1o, H1l, H1r.
    assert (H1t : Setlist.set_at (Setlist.sets this1) t = Some dst).
    { unfold this1. now rewrite (set_at_with_songs_at_ne this f t src rest Hf Hne). }
    set (this2 := with_songs_at this1 t dst
                    (Setlist.renumber (splice_insert tp song (SetDoc.songs dst)))).
    destruct (with_songs_at_effect this1 t dst
                (Setlist.renumber (splice_insert tp song (SetDoc.songs dst))) H1t)
      as (H2t & H2o & H2l & H2r).
    fold this2 in H2t, H2o, H2l, H2r.
    assert (H2f : Setlist.set_at (Setlist.sets this2) f = Some (SetDoc.with_songs src rest)).
    { unfold this2. rewrite (set_at_with_songs_at_ne this1 t f dst _ H1t) by auto.
      exact H1f. }
    destruct (with_songs_at_effect this2 f (SetDoc.with_songs src rest)
                (Setlist.renumber rest) H2f) as (H3f & H3o & H3l & H3r).
    split; [reflexivity|]. split.
    { eexists. split.
      - rewrite (set_at_with_songs_at_ne this2 f t _ _ H2f Hne). exact H2t.
      - rewrite splice_insert_at. apply renumber_renumbered. }
    split.
    { intros _. eexists. split; [exact H3f | apply renumber_renumbered]. }
    split.
    { intros j Hjf Hjt. rewrite H3o, H2o, H1o by auto. reflexivity. }
    split; [now rewrite H3l, H2l, H1l|].
    destruct this. reflexivity.
Qed.

(** The scenario of the specification: SongB moved to the front of the
    second set. *)
Lemma moveSong_moves_and_renumbers_witness :
  Setlist.set_at (Setlist.sets two_sets) 0
    = Some (SetDoc.mk "Set 1" 0 [entry "A" 1 180; entry "B" 2 200]) /\
  Setlist.set_at (Setlist.sets two_sets) 1 = Some (SetDoc.mk "Set 2" 0 [entry "C" 1 150]) /\
  js_index [entry "A" 1 180; entry "B" 2 200] 1 = Some (entry "B" 2 200) /\
  moved end_relative_position two_sets 0 1 1 0
    (SetDoc.mk "Set 1" 0 [entry "A" 1 180; entry "B" 2 200])
    (SetDoc.mk "Set 2" 0 [entry "C" 1 150])
    (entry "B" 2 200).
Proof.
  split; [reflexivity|]. split; [reflexivity|]. split; [reflexivity|].
  apply (moveSong_moves_and_renumbers two_sets 0 1 1 0); reflexivity.
Defined.

(** ** Setlist: when [moveSong] throws *)

Lemma moveSong_returns (this : Setlist.t) (f fs t tp : Z) (src dst : SetDoc.t) (song : Entry.t) :
  Setlist.set_at (Setlist.sets this) f = Some src ->
  Setlist.set_at (Setlist.sets this) t = Some dst ->
  js_index (SetDoc.songs src) fs = Some song ->
  (Setlist.moveSong f fs t tp this).2 = inr tt.
Proof.
  intros Hf Ht Hs. destruct (decide (f = t)) as [->|Hne].
  - now rewrite (moveSong_within t fs tp this src song Hf Hs).
  - now rewrite (moveSong_across f fs t tp this src dst song Hne Hf Ht Hs).
Qed.

(** C6 as stated fails: after [addSong(1, ...)] on a new setlist the [sets]
    array has length 2 and slot 0 is empty; [moveSong(1, 0, 0, 0)] throws
    "Invalid set index" although 1 and 0 are in range of [sets] and 0 is in
    range of the source set's songs. *)
Lemma moveSong_throws_on_empty_slot :
  Setlist.sets second_set_only
    = [None; Some (SetDoc.mk "Set 2" 0 [entry "A" 1 180])] /\
  Setlist.moveSong 1 0 0 0 second_set_only
    = (second_set_only, inl (Setlist.Error "Invalid set index")) /\
  ~ moveSong_fails_iff out_of_range second_set_only 1 0 0 0.
Proof.
  split; [reflexivity|]. split; [reflexivity|].
  intros [[Hfail _] _].
  destruct Hfail as [H|[H|(src & Hsrc & H)]].
  - eexists. reflexivity.
  - apply H. unfold in_range. simpl. lia.
  - apply H. unfold in_range. simpl. lia.
  - vm_compute in Hsrc. injection Hsrc as <-. apply H. unfold in_range. simpl. lia.
Qed.

(** C6, amended: [moveSong] throws if and only if no set is present at
    [fromSetIndex] or at [toSetIndex] (the index is out of range of [sets]
    or addresses an empty slot of it), or [fromSongIndex] is out of range of
    the source set's songs; what it throws is one of the two
    InvalidReference errors, and the setlist is then as it was. *)
Theorem moveSong_throws_iff (this : Setlist.t) (f fs t tp : Z) :
  moveSong_fails_iff no_set_at this f fs t tp.
Proof.
  unfold moveSong_fails_iff. cbv zeta.
  destruct (Setlist.set_at (Setlist.sets this) f) as [src|] eqn:Hf.
  2:{ rewrite (moveSong_no_set f fs t tp this) by auto. cbn [fst snd].
      split.
      - split; [intros _; left; now apply set_at_None | eauto].
      - intros e [= <-]. split; [now left | reflexivity]. }
  destruct (Setlist.set_at (Setlist.sets this) t) as [dst|] eqn:Ht.
  2:{ rewrite (moveSong_no_set f fs t tp this) by auto. cbn [fst snd].
      split.
      - split; [intros _; right; left; now apply set_at_None | eauto].
      - intros e [= <-]. split; [now left | reflexivity]. }
  destruct (js_index (SetDoc.songs src) fs) as [song|] eqn:Hs.
  - rewrite (moveSong_returns this f fs t tp src dst song Hf Ht Hs).
    split; [|discriminate].
    split; [intros [e He]; discriminate He|].
    intros [H|[H|(src' & [= <-] & H)]].
    + apply set_at_None in H. congruence.
    + apply set_at_None in H. congruence.
    + apply js_index_None in H. congruence.
  - rewrite (moveSong_no_song f fs t tp this src dst Hf Ht Hs). cbn [fst snd].
    split.
    + split; [|eauto]. intros _. right; right. exists src.
      split; [reflexivity | now apply js_index_None].
    + intros e [= <-]. split; [now right | reflexivity].
Qed.

(** ** Setlist: the order given by [addSong] *)

Section NextOrder.
Import Setlist.

Lemma Math_max_upper (xs : list Z) (x : Z) :
  x <= Math_max x xs /\ forall y, y ∈ xs -> y <= Math_max x xs.
Proof.
  unfold Math_max. revert x. induction xs as [|z xs IH]; intros x; simpl.
  - split; [lia|]. intros y Hy. inversion Hy.
  - destruct (IH (Z.max x z)) as [H1 H2]. split; [lia|].
    intros y Hy. apply elem_of_cons in Hy as [->|Hy]; [lia | now apply H2].
Qed.

Lemma Math_max_elem (xs : list Z) (x : Z) : Math_max x xs ∈ x :: xs.
Proof.
  unfold Math_max. revert x. induction xs as [|z xs IH]; intros x; simpl.
  - apply elem_of_cons. now left.
  - specialize (IH (Z.max x z)). apply elem_of_cons in IH as [Heq|Hin].
    + rewrite Heq. rewrite !elem_of_cons.
      destruct (Z.max_spec x z) as [[_ ->]|[_ ->]]; auto.
    + rewrite !elem_of_cons. auto.
Qed.

Lemma nextOrder_one_past_max (songs : list Entry.t) : one_past_max songs (nextOrder songs).
Proof.
  unfold one_past_max, nextOrder. destruct songs as [|e songs]; [now left|].
  right. rewrite fmap_cons. exists (Math_max (Entry.order e) (Entry.order <$> songs)).
  split; [apply Math_max_elem|]. split; [|reflexivity].
  intros x Hx. destruct (Math_max_upper (Entry.order <$> songs) (Entry.order e)) as [H1 H2].
  apply elem_of_cons in Hx as [->|Hx]; [exact H1 | now apply H2].
Qed.

(** In a set with contiguous orders the next order is the number of songs
    plus 1. *)
Lemma nextOrder_contiguous (songs : list Entry.t) :
  contiguous songs -> nextOrder songs = Z.of_nat (length songs) + 1.
Proof.
  intros Hc. unfold contiguous in Hc.
  assert (Hin : forall x, x ∈ (Entry.order <$> songs) <-> 1 <= x < 1 + Z.of_nat (length songs)).
  { intros x. rewrite Hc. apply elem_of_seqZ. }
  destruct (nextOrder_one_past_max songs) as [[-> ->]|(m & Hm & Hmax & ->)]; [reflexivity|].
  f_equal. apply Hin in Hm as Hm'.
  assert (Hn : Z.of_nat (length songs) ∈ (Entry.order <$> songs)) by (apply Hin; lia).
  apply Hmax in Hn. lia.
Qed.

Lemma contiguous_push (songs : list Entry.t) (s : ObjectId) (d : option Z) (n : string) :
  contiguous songs ->
  contiguous (songs ++ [Entry.mk s (nextOrder songs) d n false]).
Proof.
  intros Hc. unfold contiguous. rewrite (nextOrder_contiguous songs Hc).
  rewrite fmap_app, length_app, Nat.add_1_r, seqZ_S. simpl.
  rewrite (Z.add_comm (Z.of_nat (length songs)) 1).
  apply Permutation_app; [exact Hc | reflexivity].
Qed.

Lemma contiguous_first (s : ObjectId) (d : option Z) (n : string) :
  contiguous [Entry.mk s 1 d n false].
Proof. unfold contiguous. reflexivity. Qed.

End NextOrder.

(** ** Setlist: the order invariant *)

Section OrderInvariant.
Import Setlist.

Lemma orders_contiguous_at (this : Setlist.t) (i : Z) (set : SetDoc.t) :
  orders_contiguous this -> set_at (sets this) i = Some set -> contiguous (SetDoc.songs set).
Proof. intros Hinv Hset. apply set_at_Some in Hset as [_ Hset]. exact (Hinv _ _ Hset). Qed.

Lemma orders_contiguous_with_songs_at
    (this : Setlist.t) (i : Z) (set : SetDoc.t) (l : list Entry.t) :
  orders_contiguous this -> contiguous l -> orders_contiguous (with_songs_at this i set l).
Proof.
  intros Hinv Hl j s Hj. simpl in Hj.
  apply list_lookup_insert_Some in Hj as [(_ & Heq & _)|[_ Hj]].
  - injection Heq as <-. exact Hl.
  - exact (Hinv _ _ Hj).
Qed.

(** Overwriting slot [i] needs nothing of what the slot held. *)
Lemma orders_contiguous_overwrite
    (this : Setlist.t) (i : Z) (set : SetDoc.t) (l : list Entry.t) :
  (forall (j : nat) (s : SetDoc.t),
     j <> Z.to_nat i -> sets this !! j = Some (Some s) -> contiguous (SetDoc.songs s)) ->
  contiguous l -> orders_contiguous (with_songs_at this i set l).
Proof.
  intros Hinv Hl j s Hj. simpl in Hj.
  apply list_lookup_insert_Some in Hj as [(_ & Heq & _)|[Hne Hj]].
  - injection Heq as <-. exact Hl.
  - apply (Hinv j s); [congruence | exact Hj].
Qed.

Lemma orders_contiguous_assign (this : Setlist.t) (i : nat) (v : SetDoc.t) :
  orders_contiguous this -> contiguous (SetDoc.songs v) ->
  orders_contiguous (with_sets this (js_assign (sets this) i v)).
Proof.
  intros Hinv Hv j s Hj. simpl in Hj.
  destruct (decide (i = j)) as [->|Hne].
  - rewrite js_assign_lookup_eq in Hj. injection Hj as <-. exact Hv.
  - apply js_assign_lookup_ne in Hj; [|exact Hne]. exact (Hinv _ _ Hj).
Qed.

Lemma addSong_preserves (i : nat) (s : ObjectId) (d : option Z) (n : string) (this : Setlist.t) :
  orders_contiguous this -> orders_contiguous (addSong i s d n this).1.
Proof.
  intros Hinv.
  destruct (set_at (sets this) (Z.of_nat i)) as [set|] eqn:Hset.
  - rewrite (addSong_existing i s d n this set Hset). cbn [fst].
    apply orders_contiguous_with_songs_at; [exact Hinv|].
    apply contiguous_push. exact (orders_contiguous_at this _ set Hinv Hset).
  - rewrite (addSong_new i s d n this Hset). cbn [fst].
    apply orders_contiguous_with_songs_at; [|apply contiguous_first].
    apply orders_contiguous_assign; [exact Hinv | unfold contiguous; reflexivity].
Qed.

Lemma moveSong_preserves (f fs ti tp : Z) (this : Setlist.t) :
  orders_contiguous this -> orders_contiguous (moveSong f fs ti tp this).1.
Proof.
  intros Hinv.
  destruct (set_at (sets this) f) as [src|] eqn:Hf;
    [|now rewrite (moveSong_no_set f fs ti tp this) by auto].
  destruct (set_at (sets this) ti) as [dst|] eqn:Ht;
    [|now rewrite (moveSong_no_set f fs ti tp this) by auto].
  destruct (js_index (SetDoc.songs src) fs) as [song|] eqn:Hs;
    [|now rewrite (moveSong_no_song f fs ti tp this src dst Hf Ht Hs)].
  destruct (decide (f = ti)) as [->|Hne].
  - rewrite (moveSong_within ti fs tp this src song Hf Hs). cbn [fst].
    apply orders_contiguous_with_songs_at; [exact Hinv | apply renumber_contiguous].
  - rewrite (moveSong_across f fs ti tp this src dst song Hne Hf Ht Hs). cbn [fst].
    apply orders_contiguous_overwrite; [|apply renumber_contiguous].
    (* the source slot is the one overwritten; the destination was renumbered *)
    intros j s Hj Hs'. simpl in Hs'.
    apply list_lookup_insert_Some in Hs' as [(_ & Heq & _)|[_ Hs']].
    { injection Heq as <-. apply renumber_contiguous. }
    apply list_lookup_insert_Some in Hs' as [(Heq & _)|[_ Hs']]; [congruence|].
    exact (Hinv _ _ Hs').
Qed.

Lemma removeSong_preserves (i k : Z) (this : Setlist.t) :
  orders_contiguous this -> orders_contiguous (removeSong i k this).1.
Proof.
  intros Hinv.
  destruct (set_at (sets this) i) as [src|] eqn:Hi;
    [|now rewrite (removeSong_no_set i k this Hi)].
  destruct (js_index (SetDoc.songs src) k) as [song|] eqn:Hk;
    [|now rewrite (removeSong_no_song i k this src Hi Hk)].
  rewrite (removeSong_valid i k this src song Hi Hk). cbn [fst].
  apply orders_contiguous_with_songs_at; [exact Hinv | apply renumber_contiguous].
Qed.

Lemma after_preserves (op : Op) (this : Setlist.t) :
  orders_contiguous this -> orders_contiguous (after op this).
Proof.
  destruct op; unfold after; simpl.
  - apply addSong_preserves.
  - apply moveSong_preserves.
  - apply removeSong_preserves.
Qed.

(** A setlist created with the schema defaults has no set at all. *)
Lemma create_orders_contiguous (title : string) (owner : ObjectId) :
  orders_contiguous (create title owner).
Proof. intros i set Hi. discriminate Hi. Qed.

End OrderInvariant.

(** C1: from a setlist whose sets all have contiguous orders (a new setlist
    is one), after each operation of any sequence of [addSong], [moveSong]
    and [removeSong] calls, failed calls included, the orders of every set
    are again exactly 1..N, each once. *)
Theorem orders_contiguous_after_each (this : Setlist.t) (ops : list Op) :
  orders_contiguous this -> Forall orders_contiguous (states_after this ops).
Proof.
  revert this. induction ops as [|op ops IH]; intros this Hinv; simpl.
  - constructor.
  - constructor.
    + now apply after_preserves.
    + apply IH. now apply after_preserves.
Qed.

(** A run from a new setlist, with moves within and across sets, a removal,
    a negative position and a call that throws. *)
Lemma orders_contiguous_after_each_witness :
  orders_contiguous (Setlist.create "Gig" "u1") /\
  Forall orders_contiguous
    (states_after (Setlist.create "Gig" "u1")
       [AddSong 0 "A" (Some 180) ""; AddSong 0 "B" (Some 200) "";
        AddSong 1 "C" (Some 150) ""; MoveSong 0 1 1 0; RemoveSong 1 1;
        AddSong 1 "D" None ""; MoveSong 0 0 0 (-1); MoveSong 5 0 0 0]).
Proof.
  split; [apply create_orders_contiguous|].
  apply (orders_contiguous_after_each (Setlist.create "Gig" "u1")).
  apply create_orders_contiguous.
Defined.

(** The hypothesis of the invariant is needed for [addSong], which numbers
    the new entry from the largest order present and renumbers nothing: in
    a set stored with a gap the gap stays. *)
Lemma addSong_keeps_gap :
  orders_at
    (after (AddSong 0 "B" None "")
       (Setlist.with_sets (Setlist.create "Gig" "u1")
          [Some (SetDoc.mk "Set 1" 0 [entry "A" 5 180])])) 0
  = [5; 6].
Proof. reflexivity. Qed.

(** C8 as stated fails: in the two-set scenario [moveSong(0, 1, 1, 0)] takes
    the song of order 2 out of the first set, which retires 2 there, and the
    next [addSong(0, ...)] gives 2 out again. *)
Lemma addSong_reuses_retired_order :
  orders_at two_sets 0 = [1; 2] /\
  orders_at (after (MoveSong 0 1 1 0) two_sets) 0 = [1] /\
  orders_at (after (AddSong 0 "D" None "") (after (MoveSong 0 1 1 0) two_sets)) 0 = [1; 2] /\
  ~ never_reuses_retired two_sets (MoveSong 0 1 1 0) 0 "D" None "".
Proof.
  assert (H0 : orders_at two_sets 0 = [1; 2]) by reflexivity.
  assert (H1 : orders_at (after (MoveSong 0 1 1 0) two_sets) 0 = [1]) by reflexivity.
  assert (H2 : orders_at (after (AddSong 0 "D" None "")
                            (after (MoveSong 0 1 1 0) two_sets)) 0 = [1; 2])
    by reflexivity.
  repeat split; try assumption.
  intros H. apply (H 2).
  - unfold retired. rewrite H0, H1. rewrite !elem_of_cons, elem_of_nil.
    split; [auto | intros [?|[]]; discriminate].
  - rewrite H2. rewrite !elem_of_cons. auto.
Qed.

(** C8, amended: [addSong] returns; the set at [setIndex] is the one that
    was there, or, when none was, a new one named "Set <setIndex + 1>" with
    no songs; its entries are the former ones followed by the new entry,
    whose order is the largest order present plus 1, or 1 in a set without
    songs, and so is larger than every order present in the set (a value
    that an earlier move took out of the set may be given out again); no
    other set and no other field changes. *)
Theorem addSong_appends_one_past_max
    (this : Setlist.t) (setIndex : nat) (songId : ObjectId) (duration : option Z)
    (notes : string) :
  let r := Setlist.addSong setIndex songId duration notes this in
  let base :=
    default (SetDoc.mk (String.append "Set " (decimal (setIndex + 1))) 0 [])
            (Setlist.set_at (Setlist.sets this) (Z.of_nat setIndex)) in
  r.2 = inr tt /\
  (exists o,
     Setlist.set_at (Setlist.sets r.1) (Z.of_nat setIndex)
       = Some (SetDoc.with_songs base
                 (SetDoc.songs base ++ [Entry.mk songId o duration notes false])) /\
     one_past_max (SetDoc.songs base) o /\
     forall e, e ∈ SetDoc.songs base -> Entry.order e < o) /\
  (forall j, j <> Z.of_nat setIndex ->
     Setlist.set_at (Setlist.sets r.1) j = Setlist.set_at (Setlist.sets this) j) /\
  Setlist.with_sets r.1 (Setlist.sets this) = this.
Proof.
  cbv zeta.
  assert (Hlt : forall songs e, e ∈ songs -> Entry.order e < Setlist.nextOrder songs).
  { intros songs e He.
    destruct (nextOrder_one_past_max songs) as [[-> _]|(m & _ & Hmax & ->)].
    - inversion He.
    - assert (Entry.order e <= m) by (apply Hmax; now apply list_elem_of_fmap_2).
      lia. }
  destruct (Setlist.set_at (Setlist.sets this) (Z.of_nat setIndex)) as [set|] eqn:Hset.
  - rewrite (addSong_existing setIndex songId duration notes this set Hset).
    cbn [fst snd default].
    destruct (with_songs_at_effect this (Z.of_nat setIndex) set
                (SetDoc.songs set
                 ++ [Entry.mk songId (Setlist.nextOrder (SetDoc.songs set)) duration notes false])
                Hset) as (Hat & _ & _ & Hframe).
    split; [reflexivity|]. split.
    { exists (Setlist.nextOrder (SetDoc.songs set)).
      split; [exact Hat|]. split; [apply nextOrder_one_past_max | apply Hlt]. }
    split; [|exact Hframe].
    intros j Hj. now apply set_at_with_songs_at_ne.
  - rewrite (addSong_new setIndex songId duration notes this Hset).
    cbn [fst snd default].
    set (this1 := Setlist.with_sets this
                    (js_assign (Setlist.sets this) setIndex (Setlist.new_set setIndex))).
    assert (H1 : Setlist.set_at (Setlist.sets this1) (Z.of_nat setIndex)
                 = Some (Setlist.new_set setIndex)) by apply set_at_js_assign_eq.
    split; [reflexivity|]. split.
    { exists 1. split; [now apply set_at_with_songs_at|].
      split; [now left | intros e He; inversion He]. }
    split.
    + intros j Hj. rewrite (set_at_with_songs_at_ne this1 _ j _ _ H1) by auto.
      apply set_at_js_assign_ne. auto.
    + destruct this. reflexivity.
Qed.

(** ** The collaboration relay *)

Section Relay.
Import Server.

Lemma joined_socket_join (socket : SocketId) (room : string) (rooms : Rooms) :
  joined (socket_join socket room rooms) room = {[socket]} ∪ joined rooms room.
Proof. unfold joined at 1, socket_join. now rewrite lookup_insert_eq. Qed.

Lemma received_fanout (l : list SocketId) (event : string) (data : UpdateData)
    (socket : SocketId) :
  NoDup l ->
  received socket ((fun r => mkEmission r event data) <$> l)
  = if bool_decide (socket ∈ l) then [mkEmission socket event data] else [].
Proof.
  unfold received. induction 1 as [|x l Hx Hnd IH].
  - reflexivity.
  - rewrite fmap_cons. destruct (decide (x = socket)) as [->|Hne].
    + rewrite filter_cons_True by reflexivity.
      rewrite IH, bool_decide_eq_false_2 by exact Hx.
      rewrite bool_decide_eq_true_2 by (apply elem_of_cons; now left).
      reflexivity.
    + rewrite filter_cons_False by (simpl; exact Hne).
      rewrite IH.
      rewrite (bool_decide_ext (socket ∈ x :: l) (socket ∈ l)); [reflexivity|].
      rewrite elem_of_cons. split; [intros [?|?]; congruence | auto].
Qed.

Lemma received_on_update (rooms : Rooms) (sender : SocketId) (data : UpdateData)
    (socket : SocketId) :
  received socket (on_update_setlist sender data rooms)
  = if bool_decide (socket ∈ joined rooms (room_name (setlistId data)) /\ socket <> sender)
    then [mkEmission socket "setlist-updated" data] else [].
Proof.
  unfold on_update_setlist, socket_to_emit.
  rewrite received_fanout by apply NoDup_elements.
  rewrite (bool_decide_ext _
             (socket ∈ joined rooms (room_name (setlistId data)) /\ socket <> sender));
    [reflexivity|].
  rewrite elem_of_elements. set_solver.
Qed.

End Relay.

(** C9: an update sent into a setlist room reaches every socket joined to
    that room other than the sender exactly once, as a ['setlist-updated']
    event carrying the data sent, and reaches no other socket, the sender
    included; with A and B joined to the room of setlist "1" and A sending,
    B receives exactly one event and A none. *)
Theorem update_reaches_the_others_once
    (rooms : Server.Rooms) (sender : Server.SocketId) (data : Server.UpdateData) :
  (forall socket,
     Server.received socket (Server.on_update_setlist sender data rooms)
     = if bool_decide (socket ∈ Server.joined rooms (Server.room_name (Server.setlistId data))
                       /\ socket <> sender)
       then [Server.mkEmission socket "setlist-updated" data] else []) /\
  Server.received sender (Server.on_update_setlist sender data rooms) = [] /\
  (forall version changedBy payload,
     let update := Server.mkData "1" version changedBy payload in
     let joined_AB := Server.on_join_setlist "B" "1" (Server.on_join_setlist "A" "1" ∅) in
     Server.received "B" (Server.on_update_setlist "A" update joined_AB)
       = [Server.mkEmission "B" "setlist-updated" update] /\
     Server.received "A" (Server.on_update_setlist "A" update joined_AB) = []).
Proof.
  split; [intros socket; apply received_on_update|].
  split.
  { rewrite received_on_update. rewrite bool_decide_eq_false_2; [reflexivity | tauto]. }
  intros version changedBy payload. cbv zeta.
  rewrite !received_on_update. unfold Server.on_join_setlist.
  change (Server.room_name (Server.setlistId (Server.mkData "1" version changedBy payload)))
    with (Server.room_name "1").
  rewrite !joined_socket_join. split.
  - rewrite bool_decide_eq_true_2; [reflexivity|]. split; [set_solver | discriminate].
  - rewrite bool_decide_eq_false_2; [reflexivity|]. tauto.
Qed.

(** * Further properties of the models *)

(** ** Band: the three membership methods *)

Lemma hasMember_find (this : Band.t) (uid : ObjectId) :
  Band.hasMember this uid = bool_decide (is_Some (Band.find_member this uid)).
Proof. apply find_existsb. Qed.

(** X1: a leader holds every permission, whoever holds a permission is a
    member, and a user who is no member is no leader and holds none. *)
Theorem Band_privilege_ladder (this : Band.t) (uid : ObjectId) :
  (Band.isLeader this uid = true ->
   forall p, Band.hasPermission this uid p = true) /\
  (forall p, Band.hasPermission this uid p = true -> Band.hasMember this uid = true) /\
  (Band.hasMember this uid = false ->
   Band.isLeader this uid = false /\
   forall p, Band.hasPermission this uid p = false).
Proof.
  rewrite hasMember_find. unfold Band.isLeader, Band.hasPermission.
  destruct (Band.find_member this uid) as [m|].
  - rewrite bool_decide_eq_true_2 by eauto.
    split; [intros -> p; reflexivity|].
    split; [reflexivity | discriminate].
  - rewrite bool_decide_eq_false_2 by (intros [? ?]; discriminate).
    split; [discriminate|]. split; [discriminate | auto].
Qed.

Lemma find_member_app_listed (this : Band.t) (uid : ObjectId) (more : list Band.Member) :
  Band.hasMember this uid = true ->
  Band.find_member (Band.with_members this (Band.members this ++ more)) uid
  = Band.find_member this uid.
Proof.
  rewrite hasMember_find. intros H. apply bool_decide_eq_true in H as [m Hm].
  unfold Band.find_member in *. simpl.
  induction (Band.members this) as [|x l IH]; simpl in *; [discriminate|].
  destruct (same_id (Band.userId x) uid); [reflexivity | now apply IH].
Qed.

Lemma find_member_app_other (this : Band.t) (uid : ObjectId) (m : Band.Member) :
  Band.userId m <> uid ->
  Band.find_member (Band.with_members this (Band.members this ++ [m])) uid
  = Band.find_member this uid.
Proof.
  intros Hne. unfold Band.find_member. simpl.
  induction (Band.members this) as [|x l IH]; simpl.
  - destruct (same_id (Band.userId m) uid) eqn:E; [|reflexivity].
    apply same_id_eq in E. contradiction.
  - destruct (same_id (Band.userId x) uid); [reflexivity | exact IH].
Qed.

(** X2: the three methods read the first entry that carries the user's id:
    for a user already listed, entries pushed after it change neither
    membership, nor the leader status, nor any permission. *)
Theorem Band_first_entry_decides
    (this : Band.t) (uid : ObjectId) (more : list Band.Member) :
  Band.hasMember this uid = true ->
  let this' := Band.with_members this (Band.members this ++ more) in
  Band.hasMember this' uid = true /\
  Band.isLeader this' uid = Band.isLeader this uid /\
  forall p, Band.hasPermission this' uid p = Band.hasPermission this uid p.
Proof.
  intros H. cbv zeta. pose proof (find_member_app_listed this uid more H) as Hf.
  split.
  - rewrite hasMember_find, Hf, <- hasMember_find. exact H.
  - unfold Band.isLeader, Band.hasPermission. rewrite Hf. auto.
Qed.

(** X5: the creation hook run twice is the hook run once; it does nothing
    to a band that is not new; it keeps the members it finds, in place, and
    appends at most one; and for every user other than the creator the three
    methods answer after it as before. *)
Lemma Band_first_entry_decides_witness :
  Band.hasMember band_listed_creator "u1" = true /\
  Band.isLeader
    (Band.with_members band_listed_creator
       (Band.members band_listed_creator
        ++ [Band.mkMember "u1" Band.leader Band.all_permissions])) "u1" = false.
Proof.
  split; [reflexivity|].
  destruct (Band_first_entry_decides band_listed_creator "u1"
              [Band.mkMember "u1" Band.leader Band.all_permissions] eq_refl)
    as (_ & H & _).
  rewrite H. reflexivity.
Defined.

Theorem Band_preSave_keeps_others (this : Band.t) :
  Band.preSave (Band.preSave this) = Band.preSave this /\
  (Band.isNew this = false -> Band.preSave this = this) /\
  (exists added, Band.members (Band.preSave this) = Band.members this ++ added /\
                 (length added <= 1)%nat) /\
  forall uid,
    uid <> Band.createdBy this ->
    Band.hasMember (Band.preSave this) uid = Band.hasMember this uid /\
    Band.isLeader (Band.preSave this) uid = Band.isLeader this uid /\
    forall p, Band.hasPermission (Band.preSave this) uid p = Band.hasPermission this uid p.
Proof.
  assert (Hcases :
    Band.preSave this = this \/
    (Band.isNew this = true /\
     Band.find_member this (Band.createdBy this) = None /\
     Band.preSave this
     = Band.with_members this
         (Band.members this
          ++ [Band.mkMember (Band.createdBy this) Band.leader Band.all_permissions]))).
  { unfold Band.preSave. destruct (Band.isNew this); [|now left].
    destruct (Band.find_member this (Band.createdBy this)); [now left | right; auto]. }
  destruct Hcases as [Hid|(Hnew & Hfind & Heq)].
  { rewrite !Hid. split; [reflexivity|]. split; [reflexivity|].
    split; [exists []; rewrite app_nil_r; auto | auto]. }
  rewrite Heq. set (this' := Band.with_members this _).
  split.
  { unfold Band.preSave. replace (Band.isNew this') with true by (symmetry; exact Hnew).
    replace (Band.createdBy this') with (Band.createdBy this) by reflexivity.
    unfold this', Band.find_member. simpl.
    unfold Band.find_member in Hfind.
    rewrite (find_snoc_fresh _ _ _ Hfind) by apply same_id_refl. reflexivity. }
  split; [rewrite Hnew; discriminate|].
  split; [eexists; split; [reflexivity | simpl; lia]|].
  intros uid Hne.
  assert (Hf : Band.find_member this' uid = Band.find_member this uid).
  { apply find_member_app_other. simpl. congruence. }
  split; [now rewrite !hasMember_find, Hf|].
  unfold Band.isLeader, Band.hasPermission. rewrite Hf. auto.
Qed.

(** ** Song: access *)

(** X6: with the band collection answering, the song's access check
    resolves, and to true exactly when the actor is the song's creator or the
    song has a band id and a stored band with that id lists the actor; the
    creator gets true whatever the state of the collection.  A song has no
    public flag. *)
Theorem Song_isAccessibleBy_iff (docs : list Band.t) (this : Song.t) (userId : ObjectId) :
  (Song.isAccessibleBy (Reachable docs) this userId = Resolved true <->
   (Song.createdBy this = userId \/
    exists b, Song.bandId this = Some b /\ member_of_band docs b userId)) /\
  (exists answer, Song.isAccessibleBy (Reachable docs) this userId = Resolved answer) /\
  (forall db, Song.isAccessibleBy db this (Song.createdBy this) = Resolved true).
Proof.
  split; [|split].
  3:{ intros db. unfold Song.isAccessibleBy. now rewrite same_id_refl. }
  all: unfold Song.isAccessibleBy.
  all: destruct (same_id (Song.createdBy this) userId) eqn:Hown.
  - apply same_id_eq in Hown. split; auto.
  - assert (Hne : Song.createdBy this <> userId).
    { intros Heq. apply same_id_eq in Heq. congruence. }
    destruct (Song.bandId this) as [b|]; simpl.
    + split.
      * intros [= H]. right. exists b. split; [reflexivity|].
        apply findOne_member. now apply bool_decide_eq_true in H.
      * intros [H|(b' & [= <-] & Hm)]; [contradiction|].
        f_equal. apply bool_decide_eq_true. now apply findOne_member.
    + split; [discriminate|]. intros [H|(b' & Hb & _)]; [contradiction | discriminate].
  - eauto.
  - destruct (Song.bandId this); simpl; eauto.
Qed.

(** X7: for a setlist and a song with the same creator and the same band
    id, the setlist's check answers true when the setlist is public and
    otherwise exactly what the song's check answers, rejections included. *)
Theorem private_Setlist_access_is_Song_access
    (db : BandCollection) (setlist : Setlist.t) (song : Song.t) (userId : ObjectId) :
  Setlist.createdBy setlist = Song.createdBy song ->
  Setlist.bandId setlist = Song.bandId song ->
  Setlist.isAccessibleBy db setlist userId
  = if Setlist.isPublic setlist then Resolved true
    else Song.isAccessibleBy db song userId.
Proof.
  intros Hc Hb. unfold Setlist.isAccessibleBy, Song.isAccessibleBy.
  now rewrite Hc, Hb.
Qed.

Lemma private_Setlist_access_is_Song_access_witness :
  Setlist.createdBy band_setlist = Song.createdBy band_song /\
  Setlist.bandId band_setlist = Song.bandId band_song /\
  Setlist.isAccessibleBy Unreachable band_setlist "u2"
  = Song.isAccessibleBy Unreachable band_song "u2".
Proof.
  split; [reflexivity|]. split; [reflexivity|].
  apply (private_Setlist_access_is_Song_access Unreachable band_setlist band_song "u2");
    reflexivity.
Defined.

(** ** Band: witnesses of the creation hook's guarantees *)

Lemma Band_preSave_creator_member_witness :
  Band.isNew band_listed_creator = true /\
  Band.hasMember (Band.preSave band_listed_creator) (Band.createdBy band_listed_creator)
  = true.
Proof.
  split; [reflexivity|]. apply (Band_preSave_creator_member band_listed_creator).
  reflexivity.
Defined.

Lemma Band_preSave_added_creator_witness :
  Band.isNew band_unlisted_creator = true /\
  Band.hasMember band_unlisted_creator (Band.createdBy band_unlisted_creator) = false /\
  Band.isLeader (Band.preSave band_unlisted_creator) "u1" = true /\
  Band.hasPermission (Band.preSave band_unlisted_creator) "u1" Band.remove_members = true.
Proof.
  split; [reflexivity|]. split; [reflexivity|].
  apply (Band_preSave_added_creator band_unlisted_creator Band.remove_members);
    reflexivity.
Defined.

(** ** Setlist: totals under the ordering methods *)

Section Totals.
Import Setlist.









End Totals.



(** ** Setlist: moving an entry back *)

Section MoveBack.
Import Setlist.

Lemma renumber_unordered (l l' : list Entry.t) :
  unordered l = unordered l' -> renumber l = renumber l'.
Proof.
  intros H. apply list_eq. intros k. unfold renumber. rewrite !list_lookup_imap.
  assert (Hk : unordered l !! k = unordered l' !! k) by now rewrite H.
  unfold unordered in Hk. rewrite !list_lookup_fmap in Hk.
  destruct (l !! k) as [a|], (l' !! k) as [b|]; simpl in *; try congruence.
  injection Hk as Hk. f_equal. destruct a, b. unfold Entry.with_order in *. simpl in *.
  congruence.
Qed.

Lemma unordered_renumber (l : list Entry.t) : unordered (renumber l) = unordered l.
Proof.
  apply list_eq. intros k. unfold unordered, renumber.
  rewrite !list_lookup_fmap, list_lookup_imap. now destruct (l !! k).
Qed.

Lemma unordered_insert_at (k : nat) (x : Entry.t) (l : list Entry.t) :
  unordered (insert_at k x l) = insert_at k (Entry.with_order x 0) (unordered l).
Proof.
  unfold unordered, insert_at. now rewrite fmap_app, fmap_cons, fmap_take, fmap_drop.
Qed.

Lemma unordered_delete (k : nat) (l : list Entry.t) :
  unordered (delete k l) = delete k (unordered l).
Proof.
  unfold unordered. rewrite !delete_take_drop.
  now rewrite fmap_app, fmap_take, fmap_drop.
Qed.

Lemma unordered_length (l : list Entry.t) : length (unordered l) = length l.
Proof. unfold unordered. apply length_fmap. Qed.

Lemma delete_insert_at {A : Type} (k : nat) (x : A) (l : list A) :
  (k <= length l)%nat -> delete k (insert_at k x l) = l.
Proof.
  intros Hk. unfold insert_at.
  pose proof (delete_middle (take k l) (drop k l) x) as H.
  rewrite length_take_le in H by exact Hk. rewrite H. apply take_drop.
Qed.

Lemma insert_at_delete {A : Type} (k : nat) (x : A) (l : list A) :
  l !! k = Some x -> insert_at k x (delete k l) = l.
Proof.
  intros Hx. pose proof (lookup_lt_Some _ _ _ Hx) as Hk.
  unfold insert_at. rewrite delete_take_drop.
  rewrite take_app_length' by (rewrite length_take_le; lia).
  rewrite drop_app_length' by (rewrite length_take_le; lia).
  now apply take_drop_middle.
Qed.

Lemma lookup_insert_at {A : Type} (k : nat) (x : A) (l : list A) :
  (k <= length l)%nat -> insert_at k x l !! k = Some x.
Proof.
  intros Hk. unfold insert_at.
  apply list_lookup_middle. rewrite length_take_le; lia.
Qed.

Lemma length_insert_at {A : Type} (k : nat) (x : A) (l : list A) :
  length (insert_at k x l) = S (length l).
Proof.
  unfold insert_at. rewrite length_app. simpl. rewrite length_take, length_drop. lia.
Qed.

Lemma end_relative_position_le (tp : Z) (len : nat) :
  (end_relative_position tp len <= len)%nat.
Proof.
  unfold end_relative_position, clamped_position. case_bool_decide; lia.
Qed.

Lemma end_relative_position_index (k : Z) (len : nat) :
  0 <= k <= Z.of_nat len -> end_relative_position k len = Z.to_nat k.
Proof.
  intros Hk. unfold end_relative_position, clamped_position.
  rewrite bool_decide_eq_true_2 by lia. lia.
Qed.

(** What a valid move leaves in the two sets, in the words of the code. *)
Lemma moveSong_effect (this : Setlist.t) (f fs ti tp : Z) (src dst : SetDoc.t)
    (song : Entry.t) :
  set_at (sets this) f = Some src ->
  set_at (sets this) ti = Some dst ->
  js_index (SetDoc.songs src) fs = Some song ->
  (moveSong f fs ti tp this).2 = inr tt /\
  set_at (sets (moveSong f fs ti tp this).1) ti
    = Some (SetDoc.with_songs dst
              (renumber
                 (splice_insert tp song
                    (if bool_decide (f = ti) then delete (Z.to_nat fs) (SetDoc.songs src)
                     else SetDoc.songs dst)))) /\
  (f <> ti ->
   set_at (sets (moveSong f fs ti tp this).1) f
     = Some (SetDoc.with_songs src (renumber (delete (Z.to_nat fs) (SetDoc.songs src))))) /\
  (forall j, j <> f -> j <> ti ->
     js_index (sets (moveSong f fs ti tp this).1) j = js_index (sets this) j) /\
  length (sets (moveSong f fs ti tp this).1) = length (sets this) /\
  with_sets (moveSong f fs ti tp this).1 (sets this) = this.
Proof.
  intros Hf Ht Hs.
  destruct (decide (f = ti)) as [->|Hne].
  - assert (dst = src) as -> by congruence.
    rewrite (moveSong_within ti fs tp this src song Hf Hs).
    rewrite bool_decide_eq_true_2 by reflexivity. cbn [fst snd].
    destruct (with_songs_at_effect this ti src
                (renumber (splice_insert tp song (delete (Z.to_nat fs) (SetDoc.songs src))))
                Hf) as (Hset & Hother & Hlen & Hframe).
    repeat split; auto. contradiction.
  - rewrite (moveSong_across f fs ti tp this src dst song Hne Hf Ht Hs).
    rewrite bool_decide_eq_false_2 by exact Hne. cbn [fst snd].
    set (rest := delete (Z.to_nat fs) (SetDoc.songs src)).
    set (this1 := with_songs_at this f src rest).
    destruct (with_songs_at_effect this f src rest Hf) as (H1f & H1o & H1l & H1r).
    fold this1 in H1f, H1o, H1l, H1r.
    assert (H1t : set_at (sets this1) ti = Some dst).
    { unfold this1. now rewrite (set_at_with_songs_at_ne this f ti src rest Hf Hne). }
    set (this2 := with_songs_at this1 ti dst (renumber (splice_insert tp song (SetDoc.songs dst)))).
    destruct (with_songs_at_effect this1 ti dst
                (renumber (splice_insert tp song (SetDoc.songs dst))) H1t)
      as (H2t & H2o & H2l & H2r).
    fold this2 in H2t, H2o, H2l, H2r.
    assert (H2f : set_at (sets this2) f = Some (SetDoc.with_songs src rest)).
    { unfold this2. rewrite (set_at_with_songs_at_ne this1 ti f dst _ H1t) by auto.
      exact H1f. }
    destruct (with_songs_at_effect this2 f (SetDoc.with_songs src rest)
                (renumber rest) H2f) as (H3f & H3o & H3l & H3r).
    split; [reflexivity|]. split.
    { rewrite (set_at_with_songs_at_ne this2 f ti _ _ H2f Hne). exact H2t. }
    split; [intros _; exact H3f|].
    split; [intros j Hjf Hjt; rewrite H3o, H2o, H1o by auto; reflexivity|].
    split; [now rewrite H3l, H2l, H1l|].
    destruct this. reflexivity.
Qed.

Lemma sets_ext (a b : list (option SetDoc.t)) :
  (forall j : Z, js_index a j = js_index b j) -> a = b.
Proof.
  intros H. apply list_eq. intros k.
  specialize (H (Z.of_nat k)). now rewrite !js_index_nat in H.
Qed.

Lemma set_at_js_index (l : list (option SetDoc.t)) (i : Z) (set : SetDoc.t) :
  set_at l i = Some set <-> js_index l i = Some (Some set).
Proof. rewrite set_at_Some, js_index_Some. tauto. Qed.

Lemma with_sets_same (this : Setlist.t) : with_sets this (sets this) = this.
Proof. now destruct this. Qed.

Lemma with_songs_same (set : SetDoc.t) : SetDoc.with_songs set (SetDoc.songs set) = set.
Proof. now destruct set. Qed.

End MoveBack.

(** X10: moving back undoes a move.  After a valid [moveSong(f, fs, t, tp)]
    the entry sits at index [landed] of the destination; [moveSong(t,
    landed, f, fs)] then returns and leaves both sets with their original
    entries in their original sequence, numbered 1..N by position, and
    every other set as it was; when both sets were numbered by position to
    begin with, the setlist is exactly the original one. *)
Theorem moveSong_back_restores
    (this : Setlist.t) (f fs t tp : Z) (src dst : SetDoc.t) (song : Entry.t) :
  Setlist.set_at (Setlist.sets this) f = Some src ->
  Setlist.set_at (Setlist.sets this) t = Some dst ->
  js_index (SetDoc.songs src) fs = Some song ->
  let there := (Setlist.moveSong f fs t tp this).1 in
  let base := if bool_decide (f = t) then delete (Z.to_nat fs) (SetDoc.songs src)
              else SetDoc.songs dst in
  let landed := Z.of_nat (end_relative_position tp (length base)) in
  let back := Setlist.moveSong t landed f fs there in
  back.2 = inr tt /\
  Setlist.set_at (Setlist.sets back.1) f
    = Some (SetDoc.with_songs src (Setlist.renumber (SetDoc.songs src))) /\
  Setlist.set_at (Setlist.sets back.1) t
    = Some (SetDoc.with_songs dst (Setlist.renumber (SetDoc.songs dst))) /\
  (forall j, j <> f -> j <> t ->
     js_index (Setlist.sets back.1) j = js_index (Setlist.sets this) j) /\
  (Setlist.renumber (SetDoc.songs src) = SetDoc.songs src ->
   Setlist.renumber (SetDoc.songs dst) = SetDoc.songs dst ->
   back.1 = this).
Proof.
  intros Hf Ht Hs. cbv zeta.
  destruct (moveSong_effect this f fs t tp src dst song Hf Ht Hs)
    as (_ & H1t & H1f & H1o & H1l & H1r).
  set (there := (Setlist.moveSong f fs t tp this).1) in *.
  set (base := if bool_decide (f = t) then delete (Z.to_nat fs) (SetDoc.songs src)
               else SetDoc.songs dst) in *.
  set (p := end_relative_position tp (length base)).
  apply js_index_Some in Hs as Hs'. destruct Hs' as [Hfs Hsong].
  pose proof (lookup_lt_Some _ _ _ Hsong) as Hfslt.
  assert (Hp : (p <= length base)%nat) by apply end_relative_position_le.
  set (L := Setlist.renumber (splice_insert tp song base)) in *.
  assert (HL : unordered L = insert_at p (Entry.with_order song 0) (unordered base)).
  { unfold L. now rewrite unordered_renumber, splice_insert_at, unordered_insert_at. }
  assert (HLlen : length L = S (length base)).
  { rewrite <- unordered_length, HL, length_insert_at. now rewrite unordered_length. }
  assert (Hlanded : exists song', js_index L (Z.of_nat p) = Some song' /\
                                  Entry.with_order song' 0 = Entry.with_order song 0).
  { assert (Hu : unordered L !! p = Some (Entry.with_order song 0)).
    { rewrite HL. apply lookup_insert_at. now rewrite unordered_length. }
    unfold unordered in Hu. rewrite list_lookup_fmap in Hu.
    destruct (L !! p) as [song'|] eqn:E; [|discriminate].
    exists song'. rewrite js_index_nat. split; [exact E | simpl in Hu; congruence]. }
  destruct Hlanded as (song' & Hsong' & Hsame).
  assert (Hback : unordered (delete p L) = unordered base).
  { rewrite unordered_delete, HL. apply delete_insert_at. now rewrite unordered_length. }
  assert (Hrest : forall l,
            unordered l = unordered (delete (Z.to_nat fs) (SetDoc.songs src)) ->
            Setlist.renumber (splice_insert fs song' l) = Setlist.renumber (SetDoc.songs src)).
  { intros l Hl. apply renumber_unordered.
    assert (Hlen : length l = length (delete (Z.to_nat fs) (SetDoc.songs src))).
    { rewrite <- unordered_length, Hl. apply unordered_length. }
    rewrite length_delete in Hlen by eauto.
    rewrite splice_insert_at, unordered_insert_at, Hl, Hsame.
    rewrite end_relative_position_index by lia.
    rewrite unordered_delete. apply insert_at_delete.
    unfold unordered. now rewrite list_lookup_fmap, Hsong. }
  assert (Hframe : forall back : Setlist.t,
            Setlist.with_sets back (Setlist.sets there) = there ->
            Setlist.with_sets back (Setlist.sets this) = this).
  { intros back Hb. rewrite <- H1r at 2. rewrite <- Hb. reflexivity. }
  destruct (decide (f = t)) as [->|Hne].
  - (* within one set *)
    assert (dst = src) as -> by congruence.
    unfold base in *. rewrite bool_decide_eq_true_2 in * by reflexivity.
    destruct (moveSong_effect there t (Z.of_nat p) t fs (SetDoc.with_songs src L)
                (SetDoc.with_songs src L) song' H1t H1t Hsong')
      as (H2r & H2t & _ & H2o & H2l & H2f).
    rewrite bool_decide_eq_true_2 in H2t by reflexivity. simpl in H2t.
    rewrite Nat2Z.id in H2t.
    rewrite (Hrest _ Hback) in H2t.
    change (SetDoc.with_songs (SetDoc.with_songs src L) (Setlist.renumber (SetDoc.songs src)))
      with (SetDoc.with_songs src (Setlist.renumber (SetDoc.songs src))) in H2t.
    split; [exact H2r|]. split; [exact H2t|]. split; [exact H2t|].
    split; [intros j Hj _; rewrite H2o, H1o by auto; reflexivity|].
    intros Hpos _. rewrite Hpos, with_songs_same in H2t.
    pose proof (Hframe _ H2f) as Hfr.
    transitivity (Setlist.with_sets (Setlist.moveSong t (Z.of_nat p) t fs there).1
                    (Setlist.sets this)); [|exact Hfr].
    rewrite <- (with_sets_same (Setlist.moveSong _ _ _ _ _).1) at 1. f_equal.
    apply sets_ext. intros j. destruct (decide (j = t)) as [->|Hj].
    + apply set_at_js_index in H2t. apply set_at_js_index in Hf. congruence.
    + rewrite H2o, H1o by auto. reflexivity.
  - (* across two sets *)
    specialize (H1f Hne).
    unfold base in *. rewrite bool_decide_eq_false_2 in * by exact Hne.
    destruct (moveSong_effect there t (Z.of_nat p) f fs (SetDoc.with_songs dst L)
                (SetDoc.with_songs src
                   (Setlist.renumber (delete (Z.to_nat fs) (SetDoc.songs src))))
                song' H1t H1f Hsong')
      as (H2r & H2f & H2t & H2o & H2l & H2fr).
    rewrite bool_decide_eq_false_2 in H2f by auto. simpl in H2f.
    rewrite (Hrest _ (unordered_renumber _)) in H2f.
    specialize (H2t (not_eq_sym Hne)). simpl in H2t. rewrite Nat2Z.id in H2t.
    rewrite (renumber_unordered _ _ Hback) in H2t.
    change (SetDoc.with_songs (SetDoc.with_songs ?a ?b) ?c)
      with (SetDoc.with_songs a c) in H2f, H2t.
    split; [exact H2r|]. split; [exact H2f|]. split; [exact H2t|].
    split; [intros j Hjf Hjt; rewrite H2o, H1o by auto; reflexivity|].
    intros Hsrc Hdst. rewrite Hsrc, with_songs_same in H2f.
    rewrite Hdst, with_songs_same in H2t.
    pose proof (Hframe _ H2fr) as Hfr.
    transitivity (Setlist.with_sets (Setlist.moveSong t (Z.of_nat p) f fs there).1
                    (Setlist.sets this)); [|exact Hfr].
    rewrite <- (with_sets_same (Setlist.moveSong _ _ _ _ _).1) at 1. f_equal.
    apply sets_ext. intros j.
    destruct (decide (j = f)) as [->|Hjf]; [|destruct (decide (j = t)) as [->|Hjt]].
    + apply set_at_js_index in H2f. apply set_at_js_index in Hf. congruence.
    + apply set_at_js_index in H2t. apply set_at_js_index in Ht. congruence.
    + rewrite H2o, H1o by auto. reflexivity.
Qed.

Lemma moveSong_back_restores_witness :
  Setlist.set_at (Setlist.sets two_sets) 0
    = Some (SetDoc.mk "Set 1" 0 [entry "A" 1 180; entry "B" 2 200]) /\
  Setlist.set_at (Setlist.sets two_sets) 1 = Some (SetDoc.mk "Set 2" 0 [entry "C" 1 150]) /\
  js_index [entry "A" 1 180; entry "B" 2 200] 1 = Some (entry "B" 2 200) /\
  (Setlist.moveSong 1 0 0 1 (Setlist.moveSong 0 1 1 0 two_sets).1).1 = two_sets.
Proof.
  split; [reflexivity|]. split; [reflexivity|]. split; [reflexivity|].
  destruct (moveSong_back_restores two_sets 0 1 1 0
              (SetDoc.mk "Set 1" 0 [entry "A" 1 180; entry "B" 2 200])
              (SetDoc.mk "Set 2" 0 [entry "C" 1 150])
              (entry "B" 2 200) eq_refl eq_refl eq_refl) as (_ & _ & _ & _ & H).
  exact (H eq_refl eq_refl).
Defined.

(** X11: [addSong] at an index at or past the end of [sets] makes the array
    [setIndex + 1] long, keeps the slots it had, and leaves every slot
    between the old end and [setIndex] empty; on such a slot [moveSong]
    throws "Invalid set index" and changes nothing. *)
Theorem addSong_past_the_end
    (this : Setlist.t) (setIndex : nat) (songId : ObjectId) (duration : option Z)
    (notes : string) :
  (length (Setlist.sets this) <= setIndex)%nat ->
  let after := (Setlist.addSong setIndex songId duration notes this).1 in
  length (Setlist.sets after) = S setIndex /\
  take (length (Setlist.sets this)) (Setlist.sets after) = Setlist.sets this /\
  (forall j : nat,
     (length (Setlist.sets this) <= j < setIndex)%nat ->
     Setlist.sets after !! j = Some None /\
     forall fs t tp,
       Setlist.moveSong (Z.of_nat j) fs t tp after
       = (after, inl (Setlist.Error "Invalid set index"))).
Proof.
  intros Hlen. cbv zeta.
  assert (Hnone : Setlist.set_at (Setlist.sets this) (Z.of_nat setIndex) = None).
  { apply set_at_None. left. unfold in_range. lia. }
  split; [|split].
  all: rewrite (addSong_new setIndex songId duration notes this Hnone); cbn [fst].
  all: unfold with_songs_at; simpl Setlist.sets.
  all: unfold js_assign; rewrite bool_decide_eq_false_2 by lia.
  - rewrite length_insert, !length_app, length_replicate. simpl. lia.
  - rewrite take_insert_ge by (rewrite Nat2Z.id; lia). now rewrite take_app_length.
  - intros j Hj.
    assert (Hslot : <[Z.to_nat (Z.of_nat setIndex) := Some (SetDoc.with_songs (Setlist.new_set setIndex)
                                [Entry.mk songId 1 duration notes false])]>
                      (Setlist.sets this ++ replicate (setIndex - length (Setlist.sets this)) None
                       ++ [Some (Setlist.new_set setIndex)]) !! j = Some None).
    { rewrite Nat2Z.id, list_lookup_insert_ne by lia.
      rewrite lookup_app_r by lia.
      rewrite lookup_app_l by (rewrite length_replicate; lia).
      apply lookup_replicate_2. lia. }
    split; [exact Hslot|].
    intros fs t tp. apply moveSong_no_set. left.
    apply set_at_None. right. simpl Setlist.sets. now rewrite js_index_nat.
Qed.

Lemma addSong_past_the_end_witness :
  (length (Setlist.sets (Setlist.create "Gig" "u1")) <= 2)%nat /\
  length (Setlist.sets (Setlist.addSong 2 "A" (Some 180) "" (Setlist.create "Gig" "u1")).1)
  = 3%nat.
Proof.
  split; [simpl; lia|].
  apply (addSong_past_the_end (Setlist.create "Gig" "u1") 2 "A" (Some 180) "").
  simpl; lia.
Defined.

(** ** The formatted durations *)

Lemma two_digit_fields (n : nat) : (n < 100)%nat -> two_digit_field n = true.
Proof.
  intros Hn.
  assert (H : forallb two_digit_field (seq 0 100) = true) by (vm_compute; reflexivity).
  rewrite forallb_forall in H. apply H. apply in_seq. lia.
Qed.

Lemma field_two_digits (z : Z) :
  0 <= z < 100 ->
  exists a b, padStart_0 2 (Number_toString z) = String a (String b EmptyString) /\
              two_digits a b = Some z.
Proof.
  intros Hz. unfold Number_toString. rewrite bool_decide_eq_false_2 by lia.
  pose proof (two_digit_fields (Z.to_nat z) ltac:(lia)) as H.
  unfold two_digit_field in H.
  destruct (padStart_0 2 (decimal (Z.to_nat z))) as [|a [|b [|]]]; try discriminate.
  exists a, b. split; [reflexivity|].
  apply bool_decide_eq_true in H. rewrite H. f_equal. lia.
Qed.

(** X12: for a total of 0 up to 359999 seconds (under 100 hours) the
    formatted total is 8 characters, "HH:MM:SS" with two digits per field,
    and reads back as that number of seconds; so two such totals are
    formatted alike only when they are equal. *)
Theorem formattedTotalDuration_reads_back (this : Setlist.t) :
  0 <= Setlist.totalDuration this < 360000 ->
  String.length (Setlist.formattedTotalDuration this) = 8%nat /\
  read_clock (Setlist.formattedTotalDuration this) = Some (Setlist.totalDuration this).
Proof.
  intros Hd. unfold Setlist.formattedTotalDuration.
  case_bool_decide as H0; [rewrite H0; split; reflexivity|].
  set (d := Setlist.totalDuration this) in *.
  rewrite !Z.rem_mod_nonneg by lia.
  destruct (field_two_digits (d `div` 3600)) as (h1 & h0 & -> & Hh);
    [split; [apply Z.div_pos; lia | apply Z.div_lt_upper_bound; lia]|].
  destruct (field_two_digits ((d `mod` 3600) `div` 60)) as (m1 & m0 & -> & Hm).
  { pose proof (Z.mod_pos_bound d 3600 ltac:(lia)).
    split; [apply Z.div_pos; lia | apply Z.div_lt_upper_bound; lia]. }
  destruct (field_two_digits (d `mod` 60)) as (s1 & s0 & -> & Hs).
  { pose proof (Z.mod_pos_bound d 60 ltac:(lia)). lia. }
  split; [reflexivity|].
  unfold String.append. cbn [read_clock].
  rewrite bool_decide_eq_true_2 by auto.
  rewrite Hh, Hm, Hs. simpl. f_equal.
  Z.to_euclidean_division_equations. lia.
Qed.

Lemma formattedTotalDuration_reads_back_witness :
  0 <= Setlist.totalDuration (Setlist.preSave two_sets) < 360000 /\
  Setlist.formattedTotalDuration (Setlist.preSave two_sets) = "00:08:50" /\
  read_clock "00:08:50" = Some 530.
Proof.
  assert (Hd : 0 <= Setlist.totalDuration (Setlist.preSave two_sets) < 360000).
  { change (Setlist.totalDuration (Setlist.preSave two_sets)) with 530. lia. }
  split; [exact Hd|]. split; [reflexivity|].
  change "00:08:50" with (Setlist.formattedTotalDuration (Setlist.preSave two_sets)).
  change 530 with (Setlist.totalDuration (Setlist.preSave two_sets)).
  apply (formattedTotalDuration_reads_back (Setlist.preSave two_sets) Hd).
Defined.

(** X13: for a song of 0 up to 5999 seconds (under 100 minutes) the formatted
    duration is 5 characters, "MM:SS", and reads back as that number of
    seconds. *)
Theorem formattedDuration_reads_back (this : Song.t) (d : Z) :
  Song.duration this = Some d -> 0 <= d < 6000 ->
  String.length (Song.formattedDuration this) = 5%nat /\
  read_minutes (Song.formattedDuration this) = Some d.
Proof.
  intros Hdur Hd. unfold Song.formattedDuration. rewrite Hdur.
  case_bool_decide as H0; [rewrite H0; split; reflexivity|].
  rewrite !Z.rem_mod_nonneg by lia.
  destruct (field_two_digits (d `div` 60)) as (m1 & m0 & -> & Hm);
    [split; [apply Z.div_pos; lia | apply Z.div_lt_upper_bound; lia]|].
  destruct (field_two_digits (d `mod` 60)) as (s1 & s0 & -> & Hs).
  { pose proof (Z.mod_pos_bound d 60 ltac:(lia)). lia. }
  split; [reflexivity|].
  unfold String.append. cbn [read_minutes].
  rewrite bool_decide_eq_true_2 by auto.
  rewrite Hm, Hs. simpl. f_equal.
  pose proof (Z.div_mod d 60 ltac:(lia)). lia.
Qed.

Lemma formattedDuration_reads_back_witness :
  Song.duration band_song = Some 225 /\ 0 <= 225 < 6000 /\
  read_minutes (Song.formattedDuration band_song) = Some 225.
Proof.
  split; [reflexivity|]. split; [lia|].
  apply (formattedDuration_reads_back band_song 225); [reflexivity | lia].
Defined.

(** X14: for a total under one hour the setlist's formatted total is the
    song format of the same number of seconds with "00:" in front. *)
Theorem formattedTotalDuration_extends_formattedDuration
    (setlist : Setlist.t) (song : Song.t) :
  Song.duration song = Some (Setlist.totalDuration setlist) ->
  0 <= Setlist.totalDuration setlist < 3600 ->
  Setlist.formattedTotalDuration setlist
  = String.append "00:" (Song.formattedDuration song).
Proof.
  intros Hdur Hd. unfold Setlist.formattedTotalDuration, Song.formattedDuration.
  rewrite Hdur. set (d := Setlist.totalDuration setlist) in *.
  case_bool_decide; [reflexivity|].
  rewrite (Z.rem_small d 3600) by lia.
  rewrite (Z.div_small d 3600) by lia.
  reflexivity.
Qed.

Lemma formattedTotalDuration_extends_formattedDuration_witness :
  Song.duration band_song
  = Some (Setlist.totalDuration (Setlist.with_totalDuration band_setlist 225)) /\
  Setlist.formattedTotalDuration (Setlist.with_totalDuration band_setlist 225)
  = "00:03:45".
Proof.
  split; [reflexivity|].
  rewrite (formattedTotalDuration_extends_formattedDuration
             (Setlist.with_totalDuration band_setlist 225) band_song eq_refl);
    [reflexivity | simpl; lia].
Defined.

(** ** The collaboration relay: rooms *)

Section RelayRooms.
Import Server.

Lemma room_name_inj (a b : string) : room_name a = room_name b -> a = b.
Proof. unfold room_name. cbn. intros H. now injection H. Qed.

Lemma joined_socket_join_ne (socket : SocketId) (room room' : string) (rooms : Rooms) :
  room <> room' -> joined (socket_join socket room rooms) room' = joined rooms room'.
Proof. intros Hne. unfold joined at 1, socket_join. now rewrite lookup_insert_ne. Qed.

End RelayRooms.

(** X15: rooms are separate: a socket joining the room of one setlist
    changes nothing in what any socket receives from an update of another
    setlist. *)
Theorem join_leaves_other_rooms
    (rooms : Server.Rooms) (joiner sender socket : Server.SocketId)
    (setlistId : string) (data : Server.UpdateData) :
  setlistId <> Server.setlistId data ->
  Server.received socket
    (Server.on_update_setlist sender data (Server.on_join_setlist joiner setlistId rooms))
  = Server.received socket (Server.on_update_setlist sender data rooms).
Proof.
  intros Hne. rewrite !received_on_update. unfold Server.on_join_setlist.
  rewrite joined_socket_join_ne; [reflexivity|].
  intros H. apply room_name_inj in H. contradiction.
Qed.

Lemma join_leaves_other_rooms_witness :
  "2" <> "1" /\
  Server.received "B"
    (Server.on_update_setlist "A" (Server.mkData "1" 2 "u1" "")
       (Server.on_join_setlist "C" "2" (Server.on_join_setlist "B" "1" ∅)))
  = Server.received "B"
      (Server.on_update_setlist "A" (Server.mkData "1" 2 "u1" "")
         (Server.on_join_setlist "B" "1" ∅)).
Proof.
  split; [discriminate|].
  apply (join_leaves_other_rooms _ "C" "A" "B" "2" (Server.mkData "1" 2 "u1" "")).
  discriminate.
Defined.

(** X16: once a socket has joined a setlist's room it receives each update
    another socket sends for that setlist exactly once, whether or not the
    sender has joined; joining the same room again changes nothing; and the
    update is sent as many times as the room has sockets other than the
    sender. *)
Theorem joined_socket_receives_updates
    (rooms : Server.Rooms) (socket sender : Server.SocketId) (data : Server.UpdateData) :
  sender <> socket ->
  let rooms' := Server.on_join_setlist socket (Server.setlistId data) rooms in
  Server.received socket (Server.on_update_setlist sender data rooms')
    = [Server.mkEmission socket "setlist-updated" data] /\
  Server.on_join_setlist socket (Server.setlistId data) rooms' = rooms' /\
  length (Server.on_update_setlist sender data rooms')
    = size (Server.joined rooms' (Server.room_name (Server.setlistId data)) ∖ {[sender]}).
Proof.
  intros Hne. cbv zeta. split; [|split].
  - rewrite received_on_update. unfold Server.on_join_setlist.
    rewrite joined_socket_join.
    rewrite bool_decide_eq_true_2; [reflexivity|]. split; [set_solver | congruence].
  - unfold Server.on_join_setlist, Server.socket_join at 1.
    rewrite joined_socket_join. unfold Server.socket_join.
    rewrite insert_insert_eq. f_equal.
    now rewrite (assoc_L (∪)), (idemp_L (∪)).
  - unfold Server.on_update_setlist, Server.socket_to_emit.
    now rewrite length_fmap.
Qed.

Lemma joined_socket_receives_updates_witness :
  "A" <> "B" /\
  Server.received "B"
    (Server.on_update_setlist "A" (Server.mkData "1" 2 "u1" "")
       (Server.on_join_setlist "B" "1" ∅))
  = [Server.mkEmission "B" "setlist-updated" (Server.mkData "1" 2 "u1" "")].
Proof.
  split; [discriminate|].
  apply (joined_socket_receives_updates ∅ "B" "A" (Server.mkData "1" 2 "u1" "")).
  discriminate.
Defined.
